(** * Flow-path overlay of [visualize.py]

    A shallow embedding of [visualize_max_flow] (src/visualize.py, lines
    136-301) and of the graph it reads, followed by the properties of the
    validation / aggregation / width-encoding pipeline.  The rest of the
    module is embedded as far as it computes: [create_graph], the edge
    widths and node colours of [visualize_graph], the node colours of
    [visualize_max_flow], and the column names of [load_data].  Reading
    files, converting weights, layout and drawing are outside the model.

    Modelling choices.
    - Node identifiers are strings; Python orders them by code point, which
      on UTF-8 byte strings is the byte-wise order [String.le].
    - Flow values are Python numbers.  They are modelled as exact rationals
      [Q]; numeric equality is [Qeq] ([==]).  Rounding, infinities, NaN
      and integers too large for a float (on which line 264 raises
      [OverflowError]) are outside the model.
    - A record of the [paths] list is a JSON object: each of its two keys is
      absent, holds [null], or holds a value.
    - [networkx.DiGraph] is a pair of finite maps: node -> attributes and
      (from, to) -> weight.
    - Exceptions are explicit: a computation yields [Ok v] or [Raise e]. *)

From Stdlib Require Import QArith Qminmax Lqa.
From stdpp Require Import base decidable option list sorting strings gmap.

Local Open Scope Q_scope.

(** ** Python values and exceptions *)

Inductive exn := TypeError.

Inductive result (A : Type) :=
| Ok (a : A)
| Raise (e : exn).
Arguments Ok {A} a.
Arguments Raise {A} e.

#[global] Instance result_ret : MRet result := fun A a => Ok a.
#[global] Instance result_bind : MBind result := fun A B k m =>
  match m with
  | Ok a => k a
  | Raise e => Raise e
  end.

(** A key of a JSON object. *)
Inductive field (A : Type) :=
| Absent
| Null
| Present (a : A).
Arguments Absent {A}.
Arguments Null {A}.
Arguments Present {A} a.

(** [d.get(key)]: Python [None] is [None]. *)
Definition dict_get {A} (f : field A) : option A :=
  match f with
  | Present a => Some a
  | Absent | Null => None
  end.

(** [d.get(key, default)]: the default replaces an absent key only. *)
Definition dict_get_default {A} (f : field A) (default : A) : option A :=
  match f with
  | Absent => Some default
  | Null => None
  | Present a => Some a
  end.

(** [max(a, b)] on numbers: [b] when [b > a], otherwise [a]. *)
Definition py_max (a b : Q) : Q :=
  match a ?= b with
  | Lt => b
  | _ => a
  end.

(** [max(a, b)] when [b] may be [None]: comparing [None] with a float raises. *)
Definition py_max_opt (a : Q) (b : option Q) : result Q :=
  match b with
  | Some x => Ok (py_max a x)
  | None => Raise TypeError
  end.

(** [len(x)] when [x] may be [None]. *)
Definition py_len {A} (x : option (list A)) : result nat :=
  match x with
  | Some l => Ok (length l)
  | None => Raise TypeError
  end.

(** ** The graph *)

Abbreviation edge := (string * string)%type.

Record DiGraph := {
  G_node : gmap string (option string);   (* node -> sector attribute *)
  G_adj : gmap edge Q                     (* (from, to) -> weight *)
}.

Definition empty_graph : DiGraph := {| G_node := ∅; G_adj := ∅ |}.

(** [n in G] *)
Definition has_node (G : DiGraph) (n : string) : bool :=
  bool_decide (is_Some (G_node G !! n)).

(** [G.has_edge(u, v)] *)
Definition has_edge (G : DiGraph) (u v : string) : bool :=
  bool_decide (is_Some (G_adj G !! (u, v))).

(** [G.add_node(n, sector=s)] *)
Definition add_node (n sector : string) (G : DiGraph) : DiGraph :=
  {| G_node := <[n := Some sector]> (G_node G); G_adj := G_adj G |}.

Definition touch_node (n : string) (nodes : gmap string (option string))
  : gmap string (option string) :=
  match nodes !! n with
  | Some _ => nodes
  | None => <[n := None]> nodes
  end.

(** [G.add_edge(u, v, weight=w)]: both end points become nodes, and a second
    edge on the same pair overwrites the weight. *)
Definition add_edge (u v : string) (w : Q) (G : DiGraph) : DiGraph :=
  {| G_node := touch_node v (touch_node u (G_node G));
     G_adj := <[(u, v) := w]> (G_adj G) |}.

(** [create_graph]: company rows, then edge rows. *)
Definition create_graph (edges_df : list (string * string * Q))
    (companies_df : list (string * string)) : DiGraph :=
  let G := foldl (fun G c => add_node c.1 c.2 G) empty_graph companies_df in
  foldl (fun G e => add_edge e.1.1 e.1.2 e.2 G) G edges_df.

(** ** Flow-path records *)

Record path_info := {
  pi_path : field (list string);
  pi_flow : field Q
}.

(** The consecutive pairs [(path_nodes[j], path_nodes[j+1])]. *)
Fixpoint segments (nodes : list string) : list edge :=
  match nodes with
  | u :: (v :: _) as rest => (u, v) :: segments rest
  | _ => []
  end.

(** ** Validation (lines 201-236)

    The loop keeps the set [valid_flow_edges], the counter
    [path_issues_count], and prints one debug line per defect; the printed
    lines are kept as [debug_log]. *)

Inductive defect :=
| MissingPath (i : nat)                                   (* line 209 *)
| MissingFlow (i : nat) (nodes : list string)             (* line 213 *)
| NodeNotInGraph (node : string) (i : nat) (flow : Q)     (* line 220 *)
| EdgeNotInGraph (u v : string) (i : nat) (nodes : list string) (flow : Q).
                                                          (* line 233 *)

Record validation := {
  valid_flow_edges : gset edge;
  path_issues_count : nat;
  debug_log : list defect
}.

Definition no_validation : validation :=
  {| valid_flow_edges := ∅; path_issues_count := 0; debug_log := [] |}.

(** [print(...); path_issues_count += 1] *)
Definition add_defect (d : defect) (st : validation) : validation :=
  {| valid_flow_edges := valid_flow_edges st;
     path_issues_count := S (path_issues_count st);
     debug_log := debug_log st ++ [d] |}.

(** [valid_flow_edges.add((u, v))] *)
Definition add_flow_edge (e : edge) (st : validation) : validation :=
  {| valid_flow_edges := {[e]} ∪ valid_flow_edges st;
     path_issues_count := path_issues_count st;
     debug_log := debug_log st |}.

(** How the body of the loop leaves the three guards of lines 208-225:
    by [continue] after one defect, or into the segment loop. *)
Inductive verdict :=
| Skipped (d : defect)
| Walked (nodes : list string) (flow : Q).

Definition check_record (G : DiGraph) (i : nat) (r : path_info) : verdict :=
  let path_nodes := dict_get (pi_path r) in
  let path_flow := dict_get (pi_flow r) in
  match path_nodes with
  | None | Some [] => Skipped (MissingPath i)          (* not path_nodes *)
  | Some nodes =>
      match path_flow with
      | None => Skipped (MissingFlow i nodes)          (* path_flow is None *)
      | Some flow =>
          match List.find (fun n => negb (has_node G n)) nodes with
          | Some n => Skipped (NodeNotInGraph n i flow)
          | None => Walked nodes flow
          end
      end
  end.

(** One iteration of the loop of lines 228-234. *)
Definition walk_segment (G : DiGraph) (i : nat) (nodes : list string)
    (flow : Q) (st : validation) (e : edge) : validation :=
  if has_edge G e.1 e.2 then add_flow_edge e st
  else add_defect (EdgeNotInGraph e.1 e.2 i nodes flow) st.

Definition validate_record (G : DiGraph) (i : nat) (st : validation)
    (r : path_info) : validation :=
  match check_record G i r with
  | Skipped d => add_defect d st
  | Walked nodes flow => foldl (walk_segment G i nodes flow) st (segments nodes)
  end.

(** [for i, path_info in enumerate(flow_paths)], from index [i] on. *)
Fixpoint validate_from (G : DiGraph) (i : nat) (st : validation)
    (flow_paths : list path_info) : validation :=
  match flow_paths with
  | [] => st
  | r :: rest => validate_from G (S i) (validate_record G i st r) rest
  end.

(** Lines 201-236.  The test [if flow_paths:] only selects a debug message:
    on the empty list the loop would not run either. *)
Definition validate (G : DiGraph) (flow_paths : list path_info) : validation :=
  validate_from G 0 no_validation flow_paths.

(** ** Aggregation and width encoding (lines 244-264) *)

(** The innermost loop, lines 257-260: the first position at which the
    path shows [(u, v)] updates the running maximum and ends the loop. *)
Fixpoint scan_path (u v : string) (p_flow : option Q) (cur : Q)
    (p_nodes : list string) : result Q :=
  match p_nodes with
  | a :: (b :: _) as rest =>
      if bool_decide (a = u) && bool_decide (b = v)
      then py_max_opt cur p_flow
      else scan_path u v p_flow cur rest
  | _ => Ok cur
  end.

(** Lines 255-260 for one record; [len(p_nodes)] raises on [None]. *)
Definition scan_record (u v : string) (cur : Q) (r : path_info) : result Q :=
  let p_nodes := dict_get_default (pi_path r) [] in
  let p_flow := dict_get_default (pi_flow r) 0.0 in
  match p_nodes with
  | None => Raise TypeError
  | Some nodes => scan_path u v p_flow cur nodes
  end.

(** [for path_info in flow_paths], over all the original records. *)
Fixpoint max_flow_from (u v : string) (cur : Q) (flow_paths : list path_info)
  : result Q :=
  match flow_paths with
  | [] => Ok cur
  | r :: rest => cur' ← scan_record u v cur r; max_flow_from u v cur' rest
  end.

(** [max_flow_on_this_edge], initialised to [0.0]. *)
Definition max_flow_on_this_edge (flow_paths : list path_info) (e : edge)
  : result Q :=
  max_flow_from e.1 e.2 0.0 flow_paths.

(** [max(0.5, 1.0 + 5.0 * max_flow_on_this_edge)] *)
Definition edge_width (flow : Q) : Q := py_max 0.5 (1.0 + 5.0 * flow).

Record drawn_edge := {
  de_edge : edge;
  de_flow : Q;          (* max_flow_on_this_edge *)
  de_color : string;
  de_width : Q
}.

(** The loop of lines 252-264 over the sorted edges. *)
Fixpoint style_flow_edges (flow_paths : list path_info) (es : list edge)
  : result (list drawn_edge) :=
  match es with
  | [] => Ok []
  | e :: rest =>
      f ← max_flow_on_this_edge flow_paths e;
      styled ← style_flow_edges flow_paths rest;
      mret ({| de_edge := e; de_flow := f; de_color := "blue";
               de_width := edge_width f |} :: styled)
  end.

(** Python's order on pairs of strings: the first components decide unless
    they are equal. *)
Definition edge_le (e1 e2 : edge) : Prop :=
  if decide (e1.1 = e2.1) then String.le e1.2 e2.2 else String.le e1.1 e2.1.

#[global] Instance edge_le_dec : RelDecision edge_le.
Proof. intros e1 e2. unfold edge_le. destruct (decide (e1.1 = e2.1)); apply _. Defined.

(** [sorted(list(valid_flow_edges))] *)
Definition sorted_valid_flow_edges (s : gset edge) : list edge :=
  merge_sort edge_le (elements s).

(** ** The whole function *)

Record figure := {
  fig_title : string;
  fig_flow_edges : list drawn_edge;     (* the highlighted overlay *)
  fig_source : option string;           (* node drawn green *)
  fig_sink : option string              (* node drawn red *)
}.

(** The four ways [visualize_max_flow] ends: the two early [return]s after
    the error message and the plain drawing (lines 150-171), the end of the
    body (line 301), or an exception. *)
Inductive outcome :=
| SourceNotFound (fig : figure)
| SinkNotFound (fig : figure)
| Completed (v : validation) (fig : figure)
| Raised (e : exn).

Definition plain_figure (title : string) : figure :=
  {| fig_title := title; fig_flow_edges := []; fig_source := None;
     fig_sink := None |}.

Definition visualize_max_flow (G : DiGraph) (flow_paths : list path_info)
    (source sink : string) : outcome :=
  if negb (has_node G source) then
    SourceNotFound (plain_figure ("Graph (Source '" +:+ source +:+ "' not found)"))
  else if negb (has_node G sink) then
    SinkNotFound (plain_figure ("Graph (Sink '" +:+ sink +:+ "' not found)"))
  else
    let v := validate G flow_paths in
    let styled :=
      if decide (valid_flow_edges v = ∅) then Ok []
      else style_flow_edges flow_paths
             (sorted_valid_flow_edges (valid_flow_edges v)) in
    match styled with
    | Ok drawn =>
        Completed v
          {| fig_title := "Maximum Flow from " +:+ source +:+ " to " +:+ sink;
             fig_flow_edges := drawn;
             fig_source := Some source;
             fig_sink := Some sink |}
    | Raise e => Raised e
    end.

(** What the Python caller receives: every [return] of the function, and
    the end of its body, yield [None]. *)
Inductive py_result :=
| ReturnsNone
| Raises (e : exn).

Definition caller_result (o : outcome) : py_result :=
  match o with
  | SourceNotFound _ | SinkNotFound _ | Completed _ _ => ReturnsNone
  | Raised e => Raises e
  end.

(** The highlighted-edge map of a finished run. *)
Definition highlighted (o : outcome) : list (edge * Q) :=
  match o with
  | SourceNotFound fig | SinkNotFound fig | Completed _ fig =>
      (fun d => (de_edge d, de_flow d)) <$> fig_flow_edges fig
  | Raised _ => []
  end.

(** ** Sample data *)

Definition rec (nodes : list string) (flow : Q) : path_info :=
  {| pi_path := Present nodes; pi_flow := Present flow |}.

Definition G_AB : DiGraph :=
  create_graph [("A", "B", 1)] [("A", "Tech"); ("B", "Retail")].

(** [A -> B], and [C] without any edge. *)
Definition G_AB_C : DiGraph :=
  create_graph [("A", "B", 1)] [("A", "Tech"); ("B", "Retail"); ("C", "Tech")].

Definition G_ABC : DiGraph :=
  create_graph [("A", "B", 1); ("B", "C", 2)]
    [("A", "Tech"); ("B", "Retail"); ("C", "Tech")].

(** ** Vocabulary of the properties *)

Definition edge_lt (e1 e2 : edge) : Prop := edge_le e1 e2 ∧ e1 ≠ e2.

Definition is_edge (G : DiGraph) (e : edge) : Prop := has_edge G e.1 e.2 = true.

#[global] Instance is_edge_dec (G : DiGraph) (e : edge) : Decision (is_edge G e).
Proof. unfold is_edge. apply _. Defined.

(** The debug lines one record adds when it is the [i]-th of the list. *)
Definition record_log (G : DiGraph) (i : nat) (r : path_info) : list defect :=
  match check_record G i r with
  | Skipped d => [d]
  | Walked nodes flow =>
      (fun e => EdgeNotInGraph e.1 e.2 i nodes flow)
        <$> filter (fun e => ¬ is_edge G e) (segments nodes)
  end.

(** The edges one record adds to [valid_flow_edges]. *)
Definition record_edges (G : DiGraph) (r : path_info) : gset edge :=
  match check_record G 0 r with
  | Skipped _ => ∅
  | Walked nodes _ => list_to_set (filter (is_edge G) (segments nodes))
  end.

(** The amount one record adds to [path_issues_count]. *)
Definition record_issues (G : DiGraph) (r : path_info) : nat :=
  length (record_log G 0 r).

(** The aggregation loop sees the pair [e] in the path of [r], whose flow
    reads as the number [x] (an absent flow reads as [0.0]). *)
Definition carries (e : edge) (r : path_info) (x : Q) : Prop :=
  ∃ nodes, dict_get_default (pi_path r) [] = Some nodes ∧
           e ∈ segments nodes ∧
           dict_get_default (pi_flow r) 0.0 = Some x.

(** The aggregation loop for [e] raises on [r]: [len(None)], or
    [max(_, None)] at a path that shows [e]. *)
Definition trips (e : edge) (r : path_info) : Prop :=
  pi_path r = Null ∨
  ∃ nodes, dict_get_default (pi_path r) [] = Some nodes ∧
           e ∈ segments nodes ∧ pi_flow r = Null.

(** The styled edges a run hands to the renderer. *)
Definition drawn (o : outcome) : list drawn_edge :=
  match o with
  | SourceNotFound fig | SinkNotFound fig | Completed _ fig => fig_flow_edges fig
  | Raised _ => []
  end.

(** [d] is the style the loop of lines 252-264 computes for the edge [e]. *)
Definition styles (flow_paths : list path_info) (e : edge) (d : drawn_edge)
  : Prop :=
  de_edge d = e ∧
  max_flow_on_this_edge flow_paths e = Ok (de_flow d) ∧
  de_color d = "blue" ∧
  de_width d = edge_width (de_flow d).

(** The flow values of the validating paths through [e]: the records that
    pass the three guards of validation and show [e] as a consecutive pair. *)
Definition validating_flows (G : DiGraph) (flow_paths : list path_info)
    (e : edge) : list Q :=
  omap (fun r =>
          match check_record G 0 r with
          | Walked nodes flow =>
              if decide (e ∈ segments nodes) then Some flow else None
          | Skipped _ => None
          end) flow_paths.

(** [f] is the maximum of the numbers of [l]. *)
Definition is_maximum (f : Q) (l : list Q) : Prop :=
  (∃ x, x ∈ l ∧ x == f) ∧ ∀ x, x ∈ l → x <= f.

(** The width rule in the words of the specification. *)
Definition spec_width (minimumWidth baseWidth scale aggregatedFlow : Q) : Q :=
  Qmax minimumWidth (baseWidth + scale * aggregatedFlow).

(** The three ways a record fails the guards of lines 208-225. *)
Definition path_missing (r : path_info) : Prop :=
  dict_get (pi_path r) = None ∨ dict_get (pi_path r) = Some [].

Definition flow_missing (r : path_info) : Prop :=
  dict_get (pi_flow r) = None.

Definition unknown_node (G : DiGraph) (r : path_info) : Prop :=
  ∃ nodes n, pi_path r = Present nodes ∧ n ∈ nodes ∧ has_node G n = false.

(** The [i]-th record is skipped with a defect: the body of the loop ends at
    one of its [continue]s, having counted one defect and added no edge. *)
Definition skipped (G : DiGraph) (i : nat) (r : path_info) : Prop :=
  ∃ d, check_record G i r = Skipped d ∧
       ∀ st, validate_record G i st r = add_defect d st.

(** Two styled edges agree: same pair and colour, equal numbers. *)
Definition same_style (d d' : drawn_edge) : Prop :=
  de_edge d = de_edge d' ∧ de_flow d == de_flow d' ∧
  de_color d = de_color d' ∧ de_width d == de_width d'.

(** ** The rest of the module *)

(** The two loops of [create_graph], from any graph. *)
Definition add_company_rows (G : DiGraph) (rows : list (string * string))
  : DiGraph :=
  foldl (fun G c => add_node c.1 c.2 G) G rows.

Definition add_edge_rows (G : DiGraph) (rows : list (string * string * Q))
  : DiGraph :=
  foldl (fun G e => add_edge e.1.1 e.1.2 e.2 G) G rows.

(** *** [visualize_graph], lines 85-96: the widths of the plain drawing *)

(** [max(l)] on a non-empty list [x :: rest]: the first of the largest. *)
Definition py_max_list (x : Q) (rest : list Q) : Q := foldl py_max x rest.

(** [edge_weights] after the normalisation of lines 89-96. *)
Definition normalize_edge_weights (edge_weights : list Q) : list Q :=
  match edge_weights with
  | [] => []
  | w0 :: rest =>
      let max_weight := py_max_list w0 rest in
      match 0 ?= max_weight with
      | Lt => (fun w => 3 * w / max_weight) <$> edge_weights
      | _ => (fun _ => 1.0) <$> edge_weights
      end
  end.

(** *** The node colours (lines 98-107 and 179-190) *)

Inductive color :=
| CmapColor (cmap_name : string) (lut : nat) (i : nat)
    (* plt.cm.get_cmap(cmap_name, lut)(i) *)
| NamedColor (name : string).

(** A subscript either finds its value or raises [KeyError(key)]. *)
Inductive keyed (A : Type) :=
| Found (a : A)
| KeyError (key : string).
Arguments Found {A} a.
Arguments KeyError {A} key.

(** [set(nx.get_node_attributes(G, 'sector').values())]: the sectors of the
    nodes that have one. *)
Definition sectors (G : DiGraph) : gset string :=
  list_to_set (omap snd (map_to_list (G_node G))).

(** [for i, sector in enumerate(sectors): sector_colors[sector] =
    color_map(i)], from index [i] on.  The order in which Python iterates
    over the set is the list [order]. *)
Fixpoint enumerate_colors (color_map : nat → color) (i : nat)
    (order : list string) (sector_colors : gmap string color)
  : gmap string color :=
  match order with
  | [] => sector_colors
  | sector :: rest =>
      enumerate_colors color_map (S i) rest
        (<[sector := color_map i]> sector_colors)
  end.

(** [visualize_graph], lines 99-104. *)
Definition graph_sector_colors (G : DiGraph) (order : list string)
  : gmap string color :=
  enumerate_colors (CmapColor "tab20" (size (sectors G))) 0 order ∅.

(** [visualize_max_flow], lines 180-187. *)
Definition flow_sector_colors (G : DiGraph) (order : list string)
  : gmap string color :=
  let cmap_name :=
    if decide (size (sectors G) ≤ 20)%nat then "tab20" else "viridis" in
  enumerate_colors (CmapColor cmap_name (Nat.max 1 (size (sectors G)))) 0
    order ∅.

(** [sector_colors[G.nodes[node]['sector']]] *)
Definition graph_node_color (G : DiGraph) (sector_colors : gmap string color)
    (node : string) : keyed color :=
  match G_node G !! node with
  | None => KeyError node
  | Some None => KeyError "sector"
  | Some (Some sector) =>
      match sector_colors !! sector with
      | Some c => Found c
      | None => KeyError sector
      end
  end.

(** Line 107: the list comprehension over [G.nodes()], here [nodes]. *)
Fixpoint graph_node_colors (G : DiGraph) (sector_colors : gmap string color)
    (nodes : list string) : keyed (list color) :=
  match nodes with
  | [] => Found []
  | node :: rest =>
      match graph_node_color G sector_colors node with
      | KeyError key => KeyError key
      | Found c =>
          match graph_node_colors G sector_colors rest with
          | KeyError key => KeyError key
          | Found cs => Found (c :: cs)
          end
      end
  end.

(** [sector_colors.get(G.nodes[node].get('sector', 'Unknown'), 'gray')] *)
Definition flow_node_color (G : DiGraph) (sector_colors : gmap string color)
    (node : string) : color :=
  let sector := default "Unknown" (G_node G !! node ≫= id) in
  default (NamedColor "gray") (sector_colors !! sector).

(** Line 190. *)
Definition flow_node_colors (G : DiGraph) (sector_colors : gmap string color)
    (nodes : list string) : list color :=
  flow_node_color G sector_colors <$> nodes.

(** *** [load_data], lines 18-47: the column names of the two tables

    A data frame is the list of its columns, each a label with its cells.
    [read_csv] is outside the model, and so is the conversion of the
    weights (lines 49-56). *)

Abbreviation frame cell := (list (string * list cell)).

(** [df.columns] *)
Definition columns {cell} (df : frame cell) : list string := df.*1.

(** [df.drop(label, axis=1)] *)
Definition drop_column {cell} (label : string) (df : frame cell) : frame cell :=
  filter (fun c => c.1 ≠ label) df.

(** [df.rename(columns={old: new})] *)
Definition rename_column {cell} (old new : string) (df : frame cell)
  : frame cell :=
  (fun c => if decide (c.1 = old) then (new, c.2) else c) <$> df.

(** The number of rows of a frame that has a column. *)
Definition n_rows {cell} (df : frame cell) : nat :=
  match df with
  | [] => 0
  | c :: _ => length c.2
  end.

(** The result of a step that subscripts [df.columns]. *)
Inductive loaded (A : Type) :=
| Loaded (a : A)
| IndexError.
Arguments Loaded {A} a.
Arguments IndexError {A}.

(** Lines 19-23. *)
Definition drop_index_columns {cell} (df : frame cell) : frame cell :=
  if decide ("" ∈ columns df ∨ "Unnamed: 0" ∈ columns df) then
    let df1 := if decide ("" ∈ columns df) then drop_column "" df else df in
    if decide ("Unnamed: 0" ∈ columns df1) then drop_column "Unnamed: 0" df1
    else df1
  else df.

(** Lines 26-30; [df.columns[0]] raises on a frame without columns. *)
Definition name_company_column {cell} (df : frame cell) : loaded (frame cell) :=
  if decide ("Company" ∈ columns df) then Loaded df
  else
    match columns df !! 0%nat with
    | Some first => Loaded (rename_column first "Company" df)
    | None => IndexError
    end.

(** Lines 32-39; [unknown] is the cell ['Unknown']. *)
Definition name_sector_column {cell} (unknown : cell) (df : frame cell)
  : frame cell :=
  if decide ("Sector" ∈ columns df) then df
  else if decide (1 < length (columns df))%nat then
    match columns df !! 1%nat with
    | Some second => rename_column second "Sector" df
    | None => df
    end
  else df ++ [("Sector", replicate (n_rows df) unknown)].

(** What [load_data] does to [companies_df] after reading it. *)
Definition normalize_companies {cell} (unknown : cell) (df : frame cell)
  : loaded (frame cell) :=
  match name_company_column (drop_index_columns df) with
  | Loaded df1 => Loaded (name_sector_column unknown df1)
  | IndexError => IndexError
  end.

(** The body of the loop of lines 42-47. *)
Definition name_edge_column {cell} (df : frame cell) (ic : nat * string)
  : frame cell :=
  if decide (ic.2 ∈ columns df) then df
  else if decide (ic.1 < length (columns df))%nat then
    match columns df !! ic.1 with
    | Some c => rename_column c ic.2 df
    | None => df
    end
  else df.

(** [enumerate(required_edge_cols)] *)
Definition required_edge_cols : list (nat * string) :=
  [(0%nat, "Company1"); (1%nat, "Company2"); (2%nat, "Weight")].

(** What [load_data] does to the column names of [edges_df]. *)
Definition normalize_edges {cell} (df : frame cell) : frame cell :=
  foldl name_edge_column df required_edge_cols.

(** The labels after [rename(columns={old: new})]. *)
Definition relabel (old new : string) (cols : list string) : list string :=
  (fun l => if decide (l = old) then new else l) <$> cols.

(** * Properties *)

(** ** The order on edges and the sorted edge list *)

#[global] Instance edge_le_refl : Reflexive edge_le.
Proof. intros [u v]. unfold edge_le. simpl. by rewrite decide_True. Qed.

#[global] Instance edge_le_trans : Transitive edge_le.
Proof.
  intros [a1 b1] [a2 b2] [a3 b3]. unfold edge_le. simpl.
  intros H12 H23. repeat case_decide; simplify_eq; try by etrans.
  exfalso. by eapply H, (anti_symm String.le).
Qed.

#[global] Instance edge_le_antisym : AntiSymm (=) edge_le.
Proof.
  intros [a1 b1] [a2 b2]. unfold edge_le. simpl.
  intros H12 H21. repeat case_decide; simplify_eq.
  - f_equal. by apply (anti_symm String.le).
  - exfalso. by eapply H, (anti_symm String.le).
Qed.

#[global] Instance edge_le_total : Total edge_le.
Proof.
  intros [a1 b1] [a2 b2]. unfold edge_le. simpl.
  repeat case_decide; simplify_eq; apply (total String.le).
Qed.

Lemma elem_of_sorted_valid_flow_edges (s : gset edge) (e : edge) :
  e ∈ sorted_valid_flow_edges s ↔ e ∈ s.
Proof.
  unfold sorted_valid_flow_edges.
  by rewrite merge_sort_Permutation, elem_of_elements.
Qed.

Lemma NoDup_sorted_valid_flow_edges (s : gset edge) :
  NoDup (sorted_valid_flow_edges s).
Proof.
  unfold sorted_valid_flow_edges.
  rewrite merge_sort_Permutation. apply NoDup_elements.
Qed.

Lemma StronglySorted_strict (l : list edge) :
  StronglySorted edge_le l → NoDup l → StronglySorted edge_lt l.
Proof.
  induction 1 as [|e l Hl IH He]; intros Hnd; [constructor|].
  apply NoDup_cons in Hnd as [Hnotin Hnd].
  constructor; [by apply IH|].
  rewrite Forall_forall in He |- *. intros e' Hin. split; [by apply He|].
  intros ->. by apply Hnotin.
Qed.

Lemma sorted_valid_flow_edges_sorted (s : gset edge) :
  StronglySorted edge_lt (sorted_valid_flow_edges s).
Proof.
  apply StronglySorted_strict; [|apply NoDup_sorted_valid_flow_edges].
  unfold sorted_valid_flow_edges. apply StronglySorted_merge_sort; apply _.
Qed.

(** ** [max] on numbers *)

Lemma py_max_Qmax (a b : Q) : py_max a b = Qmax a b.
Proof. reflexivity. Qed.

Lemma py_max_ge_l (a b : Q) : a <= py_max a b.
Proof. rewrite py_max_Qmax. apply Q.le_max_l. Qed.

Lemma py_max_ge_r (a b : Q) : b <= py_max a b.
Proof. rewrite py_max_Qmax. apply Q.le_max_r. Qed.

Lemma py_max_cases (a b : Q) : py_max a b = a ∨ py_max a b = b.
Proof. unfold py_max. destruct (a ?= b); auto. Qed.

(** ** Validation *)

Lemma check_record_cases (G : DiGraph) (i : nat) (r : path_info) :
  (∃ d, check_record G i r = Skipped d ∧
        ∀ j, ∃ d', check_record G j r = Skipped d') ∨
  (∃ nodes flow, ∀ j, check_record G j r = Walked nodes flow).
Proof.
  unfold check_record.
  destruct (pi_path r) as [| |[|n nodes]]; cbn [dict_get];
    try (left; eexists; split; [done|]; intros j; by eexists).
  destruct (pi_flow r) as [| |flow]; cbn [dict_get];
    try (left; eexists; split; [done|]; intros j; by eexists).
  destruct (List.find _ (n :: nodes)).
  - left; eexists; split; [done|]; intros j; by eexists.
  - right. by exists (n :: nodes), flow.
Qed.

Section walk.
Context (G : DiGraph) (i : nat) (nodes : list string) (flow : Q).

Lemma walk_segment_edge (st : validation) (e : edge) :
  is_edge G e → walk_segment G i nodes flow st e = add_flow_edge e st.
Proof. unfold is_edge, walk_segment. by intros ->. Qed.

Lemma walk_segment_no_edge (st : validation) (e : edge) :
  ¬ is_edge G e →
  walk_segment G i nodes flow st e
  = add_defect (EdgeNotInGraph e.1 e.2 i nodes flow) st.
Proof.
  unfold is_edge, walk_segment. by intros ->%not_true_is_false.
Qed.

Lemma walk_edges (segs : list edge) (st : validation) :
  valid_flow_edges (foldl (walk_segment G i nodes flow) st segs)
  = valid_flow_edges st ∪ list_to_set (filter (is_edge G) segs).
Proof.
  revert st. induction segs as [|e segs IH]; intros st; simpl.
  - set_solver.
  - rewrite IH, filter_cons. destruct (decide (is_edge G e)) as [E|E].
    + rewrite walk_segment_edge by done. set_solver.
    + rewrite walk_segment_no_edge by done. set_solver.
Qed.

Lemma walk_log (segs : list edge) (st : validation) :
  debug_log (foldl (walk_segment G i nodes flow) st segs)
  = debug_log st ++
    ((fun e => EdgeNotInGraph e.1 e.2 i nodes flow)
       <$> filter (fun e => ¬ is_edge G e) segs).
Proof.
  revert st. induction segs as [|e segs IH]; intros st; simpl.
  - by rewrite app_nil_r.
  - rewrite IH, filter_cons. destruct (decide (is_edge G e)) as [E|E].
    + rewrite walk_segment_edge by done.
      by rewrite decide_False by (intros H; by apply H).
    + rewrite walk_segment_no_edge by done.
      rewrite decide_True by done. simpl. by rewrite <- app_assoc.
Qed.

Lemma walk_count (segs : list edge) (st : validation) :
  path_issues_count (foldl (walk_segment G i nodes flow) st segs)
  = (path_issues_count st +
     length (filter (fun e => ¬ is_edge G e) segs))%nat.
Proof.
  revert st. induction segs as [|e segs IH]; intros st; simpl.
  - lia.
  - rewrite IH, filter_cons. destruct (decide (is_edge G e)) as [E|E].
    + rewrite walk_segment_edge by done.
      by rewrite decide_False by (intros H; by apply H).
    + rewrite walk_segment_no_edge by done.
      rewrite decide_True by done. simpl. lia.
Qed.
End walk.

Lemma validate_record_edges (G : DiGraph) (i : nat) (st : validation)
    (r : path_info) :
  valid_flow_edges (validate_record G i st r)
  = valid_flow_edges st ∪ record_edges G r.
Proof.
  unfold validate_record, record_edges.
  destruct (check_record_cases G i r) as [(d & H & Hj)|(nodes & flow & Hj)].
  - rewrite H. destruct (Hj 0%nat) as [d' ->]. simpl. set_solver.
  - rewrite !Hj. apply walk_edges.
Qed.

Lemma validate_record_log (G : DiGraph) (i : nat) (st : validation)
    (r : path_info) :
  debug_log (validate_record G i st r) = debug_log st ++ record_log G i r.
Proof.
  unfold validate_record, record_log.
  destruct (check_record G i r) as [d|nodes flow]; [done|apply walk_log].
Qed.

Lemma record_log_length (G : DiGraph) (i : nat) (r : path_info) :
  length (record_log G i r) = record_issues G r.
Proof.
  unfold record_issues, record_log.
  destruct (check_record_cases G i r) as [(d & H & Hj)|(nodes & flow & Hj)].
  - rewrite H. by destruct (Hj 0%nat) as [d' ->].
  - rewrite !Hj. by rewrite !length_fmap.
Qed.

Lemma validate_record_count (G : DiGraph) (i : nat) (st : validation)
    (r : path_info) :
  path_issues_count (validate_record G i st r)
  = (path_issues_count st + record_issues G r)%nat.
Proof.
  rewrite <- (record_log_length G i). unfold validate_record, record_log.
  destruct (check_record G i r) as [d|nodes flow]; simpl; [lia|].
  rewrite length_fmap. apply walk_count.
Qed.

Lemma validate_from_edges (G : DiGraph) (ps : list path_info) :
  ∀ i st, valid_flow_edges (validate_from G i st ps)
          = valid_flow_edges st ∪ ⋃ (record_edges G <$> ps).
Proof.
  induction ps as [|r ps IH]; intros i st; simpl.
  - set_solver.
  - rewrite IH, validate_record_edges. set_solver.
Qed.

Lemma validate_from_count (G : DiGraph) (ps : list path_info) :
  ∀ i st, path_issues_count (validate_from G i st ps)
          = (path_issues_count st + sum_list_with (record_issues G) ps)%nat.
Proof.
  induction ps as [|r ps IH]; intros i st; simpl.
  - lia.
  - rewrite IH, validate_record_count. lia.
Qed.

Lemma validate_from_log_mono (G : DiGraph) (ps : list path_info) (d : defect) :
  ∀ i st, d ∈ debug_log st → d ∈ debug_log (validate_from G i st ps).
Proof.
  induction ps as [|r ps IH]; intros i st Hd; simpl; [done|].
  apply IH. rewrite validate_record_log. set_solver.
Qed.

Lemma validate_from_log (G : DiGraph) (ps : list path_info) (d : defect) :
  ∀ i st k r, ps !! k = Some r → d ∈ record_log G (i + k) r →
              d ∈ debug_log (validate_from G i st ps).
Proof.
  induction ps as [|r0 ps IH]; intros i st k r Hk Hd; [done|].
  destruct k as [|k]; simpl in *.
  - simplify_eq. apply validate_from_log_mono.
    rewrite validate_record_log. rewrite Nat.add_0_r in Hd. set_solver.
  - apply (IH _ _ k r); [done|]. by replace (S i + k)%nat with (i + S k)%nat by lia.
Qed.

Lemma validate_edges (G : DiGraph) (ps : list path_info) :
  valid_flow_edges (validate G ps) = ⋃ (record_edges G <$> ps).
Proof. unfold validate. rewrite validate_from_edges. set_solver. Qed.

Lemma validate_count (G : DiGraph) (ps : list path_info) :
  path_issues_count (validate G ps) = sum_list_with (record_issues G) ps.
Proof. unfold validate. by rewrite validate_from_count. Qed.

Lemma elem_of_validate (G : DiGraph) (ps : list path_info) (e : edge) :
  e ∈ valid_flow_edges (validate G ps) ↔ ∃ r, r ∈ ps ∧ e ∈ record_edges G r.
Proof.
  rewrite validate_edges, elem_of_union_list. split.
  - intros (X & (r & -> & Hr)%list_elem_of_fmap & He). eauto.
  - intros (r & Hr & He). exists (record_edges G r). split; [|done].
    apply list_elem_of_fmap. eauto.
Qed.

Lemma record_edges_is_edge (G : DiGraph) (r : path_info) (e : edge) :
  e ∈ record_edges G r → is_edge G e.
Proof.
  unfold record_edges. destruct (check_record G 0 r); [set_solver|].
  rewrite elem_of_list_to_set, list_elem_of_filter. tauto.
Qed.

(** ** Aggregation *)

Lemma segments_cons (a b : string) (rest : list string) :
  segments (a :: b :: rest) = (a, b) :: segments (b :: rest).
Proof. reflexivity. Qed.

Lemma scan_path_cons (u v : string) (p_flow : option Q) (cur : Q)
    (a b : string) (rest : list string) :
  scan_path u v p_flow cur (a :: b :: rest)
  = if bool_decide (a = u) && bool_decide (b = v)
    then py_max_opt cur p_flow
    else scan_path u v p_flow cur (b :: rest).
Proof. reflexivity. Qed.

Lemma scan_path_spec (u v : string) (p_flow : option Q) (cur : Q)
    (nodes : list string) :
  scan_path u v p_flow cur nodes
  = if decide ((u, v) ∈ segments nodes) then py_max_opt cur p_flow else Ok cur.
Proof.
  induction nodes as [|a nodes IH].
  - cbn [scan_path segments]. case_decide as H; [by inv H|done].
  - destruct nodes as [|b rest].
    + cbn [scan_path segments]. case_decide as H; [by inv H|done].
    + rewrite segments_cons, scan_path_cons, IH.
      destruct (decide (a = u ∧ b = v)) as [[-> ->]|N].
      * rewrite !bool_decide_eq_true_2 by done. cbn [andb].
        by rewrite decide_True by left.
      * replace (bool_decide (a = u) && bool_decide (b = v)) with false.
        2:{ symmetry. apply andb_false_iff.
            rewrite !bool_decide_eq_false.
            destruct (decide (a = u)); [right|left]; naive_solver. }
        repeat case_decide; try done.
        -- destruct H0. by right.
        -- apply elem_of_cons in H0 as [?|?]; [|done].
           destruct N. by simplify_eq.
Qed.

Lemma carries_not_trips (e : edge) (r : path_info) (x : Q) :
  carries e r x → ¬ trips e r.
Proof.
  intros (nodes & Hp & _ & Hf) [Hn|(nodes' & _ & _ & Hn)]; rewrite Hn in *;
    discriminate.
Qed.

Lemma carries_functional (e : edge) (r : path_info) (x y : Q) :
  carries e r x → carries e r y → x = y.
Proof. intros (? & _ & _ & Hx) (? & _ & _ & Hy). congruence. Qed.

Lemma scan_record_cases (u v : string) (cur : Q) (r : path_info) :
  (trips (u, v) r ∧ scan_record u v cur r = Raise TypeError) ∨
  (∃ x, carries (u, v) r x ∧ scan_record u v cur r = Ok (py_max cur x)) ∨
  (¬ trips (u, v) r ∧ (∀ x, ¬ carries (u, v) r x) ∧
   scan_record u v cur r = Ok cur).
Proof.
  unfold scan_record, trips, carries.
  destruct (dict_get_default (pi_path r) []) as [nodes|] eqn:Hp.
  - rewrite scan_path_spec.
    destruct (decide ((u, v) ∈ segments nodes)) as [Hin|Hout].
    + destruct (dict_get_default (pi_flow r) 0.0) as [x|] eqn:Hf; simpl.
      * right; left. exists x. split; [|done]. by exists nodes.
      * left. split; [|done]. right. exists nodes.
        split_and!; [done..|]. by destruct (pi_flow r).
    + right; right. split_and!; [|by intros x (? & ? & ? & ?); simplify_eq|done].
      intros [Hn|(? & ? & ? & ?)]; [by rewrite Hn in Hp|by simplify_eq].
  - left. split; [|done]. left. by destruct (pi_path r).
Qed.

Section aggregation.
Context (u v : string).

Lemma max_flow_from_cons (cur : Q) (r : path_info) (ps : list path_info) :
  max_flow_from u v cur (r :: ps)
  = match scan_record u v cur r with
    | Ok cur' => max_flow_from u v cur' ps
    | Raise e => Raise e
    end.
Proof. reflexivity. Qed.


Lemma max_flow_from_spec (ps : list path_info) :
  ∀ cur f, max_flow_from u v cur ps = Ok f →
    cur <= f ∧
    (∀ r x, r ∈ ps → carries (u, v) r x → x <= f) ∧
    (f = cur ∨ ∃ r, r ∈ ps ∧ carries (u, v) r f) ∧
    (∀ r, r ∈ ps → ¬ trips (u, v) r).
Proof.
  induction ps as [|r0 ps IH]; intros cur f Hf.
  - cbn [max_flow_from] in Hf. simplify_eq.
    split_and!; [apply Qle_refl| |by left|]; by intros ?; inversion 1.
  - rewrite max_flow_from_cons in Hf.
    destruct (scan_record_cases u v cur r0)
      as [[_ E]|[(x & Hx & E)|(Hnt & Hnc & E)]]; rewrite E in Hf;
      [done| |]; apply IH in Hf as (Hle & Hub & Hatt & Hok).
    + split_and!.
      * eapply Qle_trans; [apply py_max_ge_l|done].
      * intros r y [->|Hr]%elem_of_cons Hy; [|by eapply Hub].
        rewrite (carries_functional _ _ _ _ Hy Hx).
        eapply Qle_trans; [apply py_max_ge_r|done].
      * destruct Hatt as [->|(r & Hr & Hc)].
        -- destruct (py_max_cases cur x) as [->| ->]; [by left|].
           right. exists r0. split; [by left|done].
        -- right. exists r. split; [by right|done].
      * intros r [->|Hr]%elem_of_cons; [|by apply Hok].
        by eapply carries_not_trips.
    + split_and!; [done| |..].
      * intros r y [->|Hr]%elem_of_cons Hy; [|by eapply Hub].
        by destruct (Hnc y).
      * destruct Hatt as [->|(r & Hr & Hc)]; [by left|].
        right. exists r. split; [by right|done].
      * intros r [->|Hr]%elem_of_cons; [done|by apply Hok].
Qed.

Lemma max_flow_from_total (ps : list path_info) :
  ∀ cur, (∀ r, r ∈ ps → ¬ trips (u, v) r) →
         ∃ f, max_flow_from u v cur ps = Ok f.
Proof.
  induction ps as [|r0 ps IH]; intros cur Hok.
  - by exists cur.
  - rewrite max_flow_from_cons.
    destruct (scan_record_cases u v cur r0)
      as [[Ht _]|[(x & _ & ->)|(_ & _ & ->)]].
    + destruct (Hok r0); [by left|done].
    + apply IH. intros r Hr. apply Hok. by right.
    + apply IH. intros r Hr. apply Hok. by right.
Qed.
End aggregation.

(** ** The styling loop and the whole function *)

Lemma style_flow_edges_cons (ps : list path_info) (e : edge) (es : list edge) :
  style_flow_edges ps (e :: es)
  = match max_flow_on_this_edge ps e with
    | Ok f =>
        match style_flow_edges ps es with
        | Ok styled =>
            Ok ({| de_edge := e; de_flow := f; de_color := "blue";
                   de_width := edge_width f |} :: styled)
        | Raise x => Raise x
        end
    | Raise x => Raise x
    end.
Proof.
  cbn [style_flow_edges]. destruct (max_flow_on_this_edge ps e); [|done].
  cbn. by destruct (style_flow_edges ps es).
Qed.

Lemma style_flow_edges_ok (ps : list path_info) (es : list edge) :
  ∀ styled, style_flow_edges ps es = Ok styled → Forall2 (styles ps) es styled.
Proof.
  induction es as [|e es IH]; intros styled H.
  - cbn in H. simplify_eq. constructor.
  - rewrite style_flow_edges_cons in H.
    destruct (max_flow_on_this_edge ps e) as [f|] eqn:Ef; [|done].
    destruct (style_flow_edges ps es) as [rest|]; [|done]. simplify_eq.
    constructor; [|by apply IH]. by repeat split.
Qed.

Lemma style_flow_edges_total (ps : list path_info) (es : list edge) :
  (∀ e r, e ∈ es → r ∈ ps → ¬ trips e r) →
  ∃ styled, style_flow_edges ps es = Ok styled.
Proof.
  induction es as [|e es IH]; intros Hok; [by eexists|].
  rewrite style_flow_edges_cons.
  destruct (max_flow_from_total e.1 e.2 ps 0.0) as [f Hf].
  { intros r Hr. rewrite <- surjective_pairing. apply Hok; [by left|done]. }
  unfold max_flow_on_this_edge. rewrite Hf.
  destruct IH as [rest ->]; [|by eexists].
  intros e' r He' Hr. apply Hok; [by right|done].
Qed.


Lemma sorted_valid_flow_edges_empty : sorted_valid_flow_edges ∅ = [].
Proof. unfold sorted_valid_flow_edges. by rewrite elements_empty. Qed.

Lemma visualize_completed (G : DiGraph) (ps : list path_info) (s t : string)
    (v : validation) (fig : figure) :
  visualize_max_flow G ps s t = Completed v fig →
  has_node G s = true ∧ has_node G t = true ∧ v = validate G ps ∧
  Forall2 (styles ps) (sorted_valid_flow_edges (valid_flow_edges v))
    (fig_flow_edges fig).
Proof.
  unfold visualize_max_flow.
  destruct (has_node G s); [|done]. destruct (has_node G t); [|done].
  cbn [negb]. case_decide as Hempty.
  - intros [= <- <-]. split_and!; try done. cbn [fig_flow_edges].
    rewrite Hempty, sorted_valid_flow_edges_empty. constructor.
  - destruct (style_flow_edges _ _) as [styled|] eqn:Es; [|done].
    intros [= <- <-]. split_and!; try done. by apply style_flow_edges_ok.
Qed.

Lemma visualize_total (G : DiGraph) (ps : list path_info) (s t : string) :
  has_node G s = true → has_node G t = true →
  (∀ e r, e ∈ valid_flow_edges (validate G ps) → r ∈ ps → ¬ trips e r) →
  ∃ fig, visualize_max_flow G ps s t = Completed (validate G ps) fig.
Proof.
  intros Hs Ht Hok. unfold visualize_max_flow. rewrite Hs, Ht. cbn [negb].
  case_decide; [by eexists|].
  destruct (style_flow_edges_total ps
              (sorted_valid_flow_edges (valid_flow_edges (validate G ps))))
    as [styled ->]; [|by eexists].
  intros e r He. apply Hok. by apply elem_of_sorted_valid_flow_edges.
Qed.

Lemma drawn_inv (G : DiGraph) (ps : list path_info) (s t : string)
    (d : drawn_edge) :
  d ∈ drawn (visualize_max_flow G ps s t) →
  de_edge d ∈ valid_flow_edges (validate G ps) ∧ styles ps (de_edge d) d.
Proof.
  destruct (visualize_max_flow G ps s t) as [fig|fig|v fig|e] eqn:E.
  - unfold visualize_max_flow in E. repeat case_match; simplify_eq.
    by intros ?%elem_of_nil.
  - unfold visualize_max_flow in E. repeat case_match; simplify_eq.
    by intros ?%elem_of_nil.
  - apply visualize_completed in E as (_ & _ & -> & Hall). cbn [drawn].
    intros Hd. apply (list_elem_of_lookup_1 _ d) in Hd as [k Hk].
    destruct (Forall2_lookup_r _ _ _ _ _ Hall Hk) as (e & He & Hst).
    assert (de_edge d = e) as -> by apply Hst. split; [|done].
    apply elem_of_sorted_valid_flow_edges. by eapply list_elem_of_lookup_2.
  - by intros ?%elem_of_nil.
Qed.

Lemma highlighted_drawn (o : outcome) (e : edge) (f : Q) :
  (e, f) ∈ highlighted o ↔ ∃ d, d ∈ drawn o ∧ de_edge d = e ∧ de_flow d = f.
Proof.
  assert (∀ l : list drawn_edge,
    (e, f) ∈ (fun d => (de_edge d, de_flow d)) <$> l
    ↔ ∃ d, d ∈ l ∧ de_edge d = e ∧ de_flow d = f) as Hl.
  { intros l. rewrite list_elem_of_fmap. naive_solver. }
  destruct o; cbn [highlighted drawn]; try apply Hl.
  rewrite elem_of_nil. split; [done|]. by intros (? & ?%elem_of_nil & _).
Qed.

(** ** Records that pass validation *)

Lemma find_unknown_None (G : DiGraph) (nodes : list string) :
  (∀ n, n ∈ nodes → has_node G n = true) →
  List.find (fun n => negb (has_node G n)) nodes = None.
Proof.
  induction nodes as [|n nodes IH]; intros Hall; [done|].
  cbn [List.find]. rewrite (Hall n) by left. cbn [negb].
  apply IH. intros m Hm. apply Hall. by right.
Qed.


Lemma check_record_valid (G : DiGraph) (i : nat) (r : path_info)
    (nodes : list string) (flow : Q) :
  pi_path r = Present nodes → nodes ≠ [] → pi_flow r = Present flow →
  (∀ n, n ∈ nodes → has_node G n = true) →
  check_record G i r = Walked nodes flow.
Proof.
  intros Hp Hne Hf Hall. unfold check_record. rewrite Hp, Hf. cbn [dict_get].
  destruct nodes as [|n nodes]; [done|]. by rewrite find_unknown_None.
Qed.

Lemma check_record_walked (G : DiGraph) (i : nat) (r : path_info)
    (nodes : list string) (flow : Q) :
  check_record G i r = Walked nodes flow →
  pi_path r = Present nodes ∧ pi_flow r = Present flow ∧ nodes ≠ [] ∧
  ∀ n, n ∈ nodes → has_node G n = true.
Proof.
  unfold check_record.
  destruct (pi_path r) as [| |[|n0 nodes0]]; cbn [dict_get]; try done.
  destruct (pi_flow r) as [| |flow0]; cbn [dict_get]; try done.
  destruct (List.find _ (n0 :: nodes0)) eqn:Efind; [done|].
  intros [= <- <-]. split_and!; try done.
  intros n Hn%list_elem_of_In. apply (find_none _ _ Efind) in Hn.
  by apply negb_false_iff.
Qed.

Lemma walked_carries (G : DiGraph) (i : nat) (r : path_info)
    (nodes : list string) (flow : Q) (e : edge) :
  check_record G i r = Walked nodes flow → e ∈ segments nodes →
  carries e r flow.
Proof.
  intros (Hp & Hf & _)%check_record_walked He. exists nodes.
  by rewrite Hp, Hf.
Qed.

Lemma elem_of_record_edges (G : DiGraph) (r : path_info) (e : edge) :
  e ∈ record_edges G r ↔
  ∃ nodes flow, check_record G 0 r = Walked nodes flow ∧
                e ∈ segments nodes ∧ is_edge G e.
Proof.
  unfold record_edges. destruct (check_record G 0 r) as [d|nodes flow].
  - split; [by intros ?%not_elem_of_empty|by intros (? & ? & ? & _)].
  - rewrite elem_of_list_to_set, list_elem_of_filter. naive_solver.
Qed.

Lemma elem_of_validating_flows (G : DiGraph) (ps : list path_info) (e : edge)
    (x : Q) :
  x ∈ validating_flows G ps e ↔
  ∃ r nodes, r ∈ ps ∧ check_record G 0 r = Walked nodes x ∧ e ∈ segments nodes.
Proof.
  unfold validating_flows. rewrite list_elem_of_omap. split.
  - intros (r & Hr & H). destruct (check_record G 0 r) as [|nodes flow] eqn:E;
      [done|]. case_decide; [|done]. simplify_eq. by exists r, nodes.
  - intros (r & nodes & Hr & E & He). exists r. split; [done|].
    rewrite E. by rewrite decide_True.
Qed.

(** ** Numbers *)

Lemma edge_width_spec (f : Q) : edge_width f = spec_width 0.5 1.0 5.0 f.
Proof. reflexivity. Qed.

Lemma edge_width_pos (f : Q) : 0 < edge_width f.
Proof.
  unfold edge_width. pose proof (py_max_ge_l 0.5 (1.0 + 5.0 * f)). lra.
Qed.

Lemma edge_width_ge_1 (f : Q) : 0 <= f → 1 <= edge_width f.
Proof.
  intros Hf. unfold edge_width.
  pose proof (py_max_ge_r 0.5 (1.0 + 5.0 * f)). lra.
Qed.

Lemma edge_width_zero (f : Q) : f == 0 → edge_width f == 1.
Proof.
  intros Hf. unfold edge_width. rewrite py_max_Qmax.
  rewrite Q.max_r by lra. lra.
Qed.

(** ** The exits of the function *)

Lemma visualize_absent (G : DiGraph) (ps : list path_info) (s t : string) :
  has_node G s = false ∨ has_node G t = false →
  (∃ title, visualize_max_flow G ps s t = SourceNotFound (plain_figure title) ∨
            visualize_max_flow G ps s t = SinkNotFound (plain_figure title)) ∧
  ∀ ps', visualize_max_flow G ps' s t = visualize_max_flow G ps s t.
Proof.
  intros Habs. unfold visualize_max_flow.
  destruct (has_node G s); cbn [negb]; [|split; [by eexists; left|done]].
  destruct (has_node G t); cbn [negb]; [|split; [by eexists; right|done]].
  by destruct Habs.
Qed.

Lemma visualize_present (G : DiGraph) (ps : list path_info) (s t : string) :
  has_node G s = true → has_node G t = true →
  match style_flow_edges ps
          (sorted_valid_flow_edges (valid_flow_edges (validate G ps))) with
  | Ok styled =>
      ∃ fig, visualize_max_flow G ps s t = Completed (validate G ps) fig ∧
             fig_flow_edges fig = styled
  | Raise e => visualize_max_flow G ps s t = Raised e
  end.
Proof.
  intros Hs Ht. unfold visualize_max_flow. rewrite Hs, Ht. cbn [negb].
  case_decide as Hempty.
  - rewrite Hempty, sorted_valid_flow_edges_empty. cbn. by eexists.
  - destruct (style_flow_edges _ _); [by eexists|done].
Qed.

Lemma styles_edges (ps : list path_info) (es : list edge)
    (l : list drawn_edge) :
  Forall2 (styles ps) es l → de_edge <$> l = es.
Proof.
  induction 1 as [|e d es l [He _] _ IH]; [done|]. cbn. by rewrite He, IH.
Qed.

Lemma highlighted_edges (o : outcome) : (highlighted o).*1 = de_edge <$> drawn o.
Proof.
  destruct o; cbn [highlighted drawn]; try done;
    rewrite <- list_fmap_compose; by apply list_fmap_ext.
Qed.

Lemma drawn_edges_sorted (G : DiGraph) (ps : list path_info) (s t : string) :
  StronglySorted edge_lt (de_edge <$> drawn (visualize_max_flow G ps s t)).
Proof.
  destruct (has_node G s) eqn:Hs; [destruct (has_node G t) eqn:Ht|].
  - pose proof (visualize_present G ps s t Hs Ht) as H.
    destruct (style_flow_edges _ _) as [styled|e] eqn:Es.
    + destruct H as (fig & -> & Hfig). cbn [drawn]. rewrite Hfig.
      rewrite (styles_edges ps _ _ (style_flow_edges_ok _ _ _ Es)).
      apply sorted_valid_flow_edges_sorted.
    + rewrite H. constructor.
  - destruct (visualize_absent G ps s t) as [(title & [-> | ->]) _];
      [by right|constructor..].
  - destruct (visualize_absent G ps s t) as [(title & [-> | ->]) _];
      [by left|constructor..].
Qed.

(** ** Permuting the records *)

Lemma validate_perm (G : DiGraph) (ps ps' : list path_info) :
  ps ≡ₚ ps' →
  valid_flow_edges (validate G ps) = valid_flow_edges (validate G ps') ∧
  path_issues_count (validate G ps) = path_issues_count (validate G ps').
Proof.
  intros Hperm. split.
  - apply set_eq. intros e. rewrite !elem_of_validate.
    by setoid_rewrite Hperm.
  - rewrite !validate_count. by rewrite Hperm.
Qed.

Lemma max_flow_le_perm (ps ps' : list path_info) (e : edge) (f f' : Q) :
  (∀ r, r ∈ ps → r ∈ ps') →
  max_flow_on_this_edge ps e = Ok f → max_flow_on_this_edge ps' e = Ok f' →
  f <= f'.
Proof.
  unfold max_flow_on_this_edge.
  intros Hsub (_ & _ & Hatt & _)%max_flow_from_spec
         (H0 & Hub & _)%max_flow_from_spec.
  destruct Hatt as [->|(r & Hr & Hc)]; [done|].
  apply (Hub r); [by apply Hsub|done].
Qed.

Lemma max_flow_perm (ps ps' : list path_info) (e : edge) :
  ps ≡ₚ ps' →
  match max_flow_on_this_edge ps e, max_flow_on_this_edge ps' e with
  | Ok f, Ok f' => f == f'
  | Raise _, Raise _ => True
  | _, _ => False
  end.
Proof.
  intros Hperm.
  assert (∀ l l' : list path_info, l ≡ₚ l' → ∀ f,
            max_flow_on_this_edge l e = Ok f →
            ∃ f', max_flow_on_this_edge l' e = Ok f') as Hok.
  { intros l l' Hl f (_ & _ & _ & Hnt)%max_flow_from_spec.
    apply max_flow_from_total. intros r Hr. apply Hnt. by rewrite Hl. }
  destruct (max_flow_on_this_edge ps e) as [f|x] eqn:E,
           (max_flow_on_this_edge ps' e) as [f'|x'] eqn:E'; try done.
  - apply Qle_antisym.
    + apply (max_flow_le_perm ps ps' e); [|done..]. intros r. by rewrite Hperm.
    + apply (max_flow_le_perm ps' ps e); [|done..]. intros r. by rewrite Hperm.
  - destruct (Hok ps ps' Hperm f E) as [? ?]. congruence.
  - destruct (Hok ps' ps (symmetry Hperm) f' E') as [? ?]. congruence.
Qed.

Lemma edge_width_proper (f f' : Q) : f == f' → edge_width f == edge_width f'.
Proof.
  intros Hf. unfold edge_width. rewrite !py_max_Qmax. by rewrite Hf.
Qed.

Lemma style_perm (ps ps' : list path_info) (es : list edge) :
  ps ≡ₚ ps' →
  match style_flow_edges ps es, style_flow_edges ps' es with
  | Ok l, Ok l' => Forall2 same_style l l'
  | Raise _, Raise _ => True
  | _, _ => False
  end.
Proof.
  intros Hperm. induction es as [|e es IH]; [constructor|].
  rewrite !style_flow_edges_cons.
  pose proof (max_flow_perm ps ps' e Hperm) as He.
  destruct (max_flow_on_this_edge ps e) as [f|],
           (max_flow_on_this_edge ps' e) as [f'|]; try done.
  destruct (style_flow_edges ps es) as [l|],
           (style_flow_edges ps' es) as [l'|]; try done.
  constructor; [|done]. split_and!; try done. by apply edge_width_proper.
Qed.

(** ** The scenarios of the specification *)

(** One path [A, B, C] of flow 0.5 on the graph [A -> B -> C]. *)
Example scenario_single_path :
  highlighted (visualize_max_flow G_ABC [rec ["A"; "B"; "C"] 0.5] "A" "C")
  = [(("A", "B"), 0.5); (("B", "C"), 0.5)].
Proof. by vm_compute. Qed.

(** The empty list of paths: nothing highlighted, no defect. *)
Example scenario_no_paths :
  highlighted (visualize_max_flow G_ABC [] "A" "C") = [] ∧
  path_issues_count (validate G_ABC []) = 0%nat.
Proof. by vm_compute. Qed.

(** * The claims *)

(** ** C1: the aggregated flow of a highlighted edge *)

(** C1, as stated, fails in two ways.  A record discarded by validation
    (here [A, B, X] with [X] unknown) still feeds the maximum of the edge
    [(A, B)], so the aggregate 0.9 is not the maximum 0.3 of the validating
    paths; and a single validating path of flow -0.5 gives the aggregate 0,
    which is not the flow of any validating path. *)
Lemma C1_counterexample :
  (let ps := [rec ["A"; "B"] 0.3; rec ["A"; "B"; "X"] 0.9] in
   highlighted (visualize_max_flow G_AB ps "A" "B") = [(("A", "B"), 0.9)] ∧
   validating_flows G_AB ps ("A", "B") = [0.3] ∧
   ¬ is_maximum 0.9 (validating_flows G_AB ps ("A", "B"))) ∧
  (let ps := [rec ["A"; "B"] (-0.5)] in
   highlighted (visualize_max_flow G_AB ps "A" "B") = [(("A", "B"), 0.0)] ∧
   validating_flows G_AB ps ("A", "B") = [-0.5] ∧
   ¬ is_maximum 0.0 (validating_flows G_AB ps ("A", "B"))).
Proof.
  split; cbv zeta.
  - split_and!; [by vm_compute..|].
    replace (validating_flows _ _ _) with [0.3] by by vm_compute.
    intros [(x & ->%list_elem_of_singleton & Hx) _]. revert Hx. by vm_compute.
  - split_and!; [by vm_compute..|].
    replace (validating_flows _ _ _) with [-0.5] by by vm_compute.
    intros [(x & ->%list_elem_of_singleton & Hx) _]. revert Hx. by vm_compute.
Qed.

(** C1 (amended): the aggregated flow of a highlighted edge is the maximum
    of 0 and the flows of all the records of the original list, validated
    or not, whose path shows the edge as a consecutive pair (an absent flow
    counting as 0): it is at least 0, at least each such flow, and it is 0
    or one of these flows, never a sum.  It bounds the flows of the
    validating paths through the edge, of which there is at least one. *)
Theorem C1_aggregate_is_max_over_all_records (G : DiGraph)
    (ps : list path_info) (s t : string) (e : edge) (f : Q) :
  (e, f) ∈ highlighted (visualize_max_flow G ps s t) →
  0 <= f ∧
  (∀ r x, r ∈ ps → carries e r x → x <= f) ∧
  (f = 0.0 ∨ ∃ r, r ∈ ps ∧ carries e r f) ∧
  (∀ x, x ∈ validating_flows G ps e → x <= f) ∧
  validating_flows G ps e ≠ [].
Proof.
  intros (d & Hd & <- & <-)%highlighted_drawn.
  apply drawn_inv in Hd as [Hin (_ & Hmax & _)].
  unfold max_flow_on_this_edge in Hmax.
  apply max_flow_from_spec in Hmax as (H0 & Hub & Hatt & _).
  rewrite <- surjective_pairing in Hub, Hatt.
  split_and!; [lra|done|done|..].
  - intros x (r & nodes & Hr & Hw & He)%elem_of_validating_flows.
    apply (Hub r); [done|]. by eapply walked_carries.
  - apply elem_of_validate in Hin as (r & Hr & He).
    apply elem_of_record_edges in He as (nodes & flow & Hw & He & _).
    intros Hnil. assert (flow ∈ validating_flows G ps (de_edge d)) as Hin.
    { apply elem_of_validating_flows. by exists r, nodes. }
    rewrite Hnil in Hin. by inv Hin.
Qed.

(** The scenario of C1: two records on the path [A, B] with flows 0.3 and
    0.7 give the edge [(A, B)] the aggregate 0.7. *)
Lemma C1_witness :
  let ps := [rec ["A"; "B"] 0.3; rec ["A"; "B"] 0.7] in
  highlighted (visualize_max_flow G_AB ps "A" "B") = [(("A", "B"), 0.7)] ∧
  (0 <= 0.7 ∧
   (∀ r x, r ∈ ps → carries ("A", "B") r x → x <= 0.7) ∧
   (0.7 = 0.0 ∨ ∃ r, r ∈ ps ∧ carries ("A", "B") r 0.7) ∧
   (∀ x, x ∈ validating_flows G_AB ps ("A", "B") → x <= 0.7) ∧
   validating_flows G_AB ps ("A", "B") ≠ []).
Proof.
  cbv zeta. split; [by vm_compute|].
  apply (C1_aggregate_is_max_over_all_records G_AB _ "A" "B").
  vm_compute. left.
Defined.

(** ** C9: highlighted edges are edges of the graph *)

(** C9: every pair that validation puts into [valid_flow_edges], and hence
    every highlighted edge of any run, is a directed edge of the graph. *)
Theorem C9_highlighted_edges_are_graph_edges (G : DiGraph)
    (ps : list path_info) :
  (∀ e, e ∈ valid_flow_edges (validate G ps) → e ∈ dom (G_adj G)) ∧
  (∀ s t e f, (e, f) ∈ highlighted (visualize_max_flow G ps s t) →
              e ∈ dom (G_adj G) ∧ has_edge G e.1 e.2 = true).
Proof.
  assert (∀ e, e ∈ valid_flow_edges (validate G ps) →
               e ∈ dom (G_adj G) ∧ has_edge G e.1 e.2 = true) as Hedge.
  { intros e (r & _ & He%record_edges_is_edge)%elem_of_validate.
    split; [|done]. unfold is_edge, has_edge in He.
    apply bool_decide_eq_true in He. rewrite <- surjective_pairing in He.
    by apply elem_of_dom. }
  split; [intros e He; by apply Hedge|].
  intros s t e f (d & Hd & <- & _)%highlighted_drawn.
  apply drawn_inv in Hd as [Hin _]. by apply Hedge.
Qed.

Lemma C9_witness :
  ("A", "B") ∈ dom (G_adj G_ABC) ∧ has_edge G_ABC "A" "B" = true.
Proof.
  apply (proj2 (C9_highlighted_edges_are_graph_edges G_ABC
                  [rec ["A"; "B"; "C"] 0.5; rec ["A"; "C"] 1])
           "A" "C" ("A", "B") 0.5).
  vm_compute. left.
Defined.

(** ** C8: the width of a highlighted edge *)

(** C8: every highlighted edge is drawn with the width
    [max(minimumWidth, baseWidth + scale * aggregatedFlow)] for
    [minimumWidth] 0.5, [baseWidth] 1.0 and [scale] 5.0; that width is
    positive, and it is 1 when the aggregated flow is zero. *)
Theorem C8_edge_width_formula (G : DiGraph) (ps : list path_info)
    (s t : string) (d : drawn_edge) :
  d ∈ drawn (visualize_max_flow G ps s t) →
  de_width d = spec_width 0.5 1.0 5.0 (de_flow d) ∧
  0 < de_width d ∧
  (de_flow d == 0 → de_width d == 1).
Proof.
  intros [_ (_ & _ & _ & ->)]%drawn_inv. split_and!.
  - apply edge_width_spec.
  - apply edge_width_pos.
  - apply edge_width_zero.
Qed.

Lemma C8_witness :
  let d := {| de_edge := ("A", "B"); de_flow := 0.0; de_color := "blue";
              de_width := 1.0 + 5.0 * 0.0 |} in
  drawn (visualize_max_flow G_AB [rec ["A"; "B"] 0.0] "A" "B") = [d] ∧
  de_width d = spec_width 0.5 1.0 5.0 (de_flow d) ∧
  0 < de_width d ∧
  (de_flow d == 0 → de_width d == 1).
Proof.
  cbv zeta. split; [by vm_compute|].
  apply (C8_edge_width_formula G_AB [rec ["A"; "B"] 0.0] "A" "B").
  vm_compute. left.
Defined.

(** ** C10: the aggregate is never negative *)

(** C10: the aggregated flow of a highlighted edge is at least 0; it is 0
    when every record that shows the edge carries a negative flow; and the
    drawn width is at least 1. *)
Theorem C10_aggregate_clamped_at_zero (G : DiGraph) (ps : list path_info)
    (s t : string) (d : drawn_edge) :
  d ∈ drawn (visualize_max_flow G ps s t) →
  0 <= de_flow d ∧
  ((∀ r x, r ∈ ps → carries (de_edge d) r x → x < 0) → de_flow d = 0.0) ∧
  1 <= de_width d.
Proof.
  intros [_ (_ & Hmax & _ & Hw)]%drawn_inv.
  unfold max_flow_on_this_edge in Hmax.
  apply max_flow_from_spec in Hmax as (H0 & _ & Hatt & _).
  rewrite <- surjective_pairing in Hatt. split_and!; [lra| |].
  - intros Hneg. destruct Hatt as [?|(r & Hr & Hc)]; [done|].
    specialize (Hneg r _ Hr Hc). lra.
  - rewrite Hw. apply edge_width_ge_1. lra.
Qed.

Lemma C10_witness :
  let ps := [rec ["A"; "B"] (-0.5); rec ["A"; "B"] (-2)] in
  let d := {| de_edge := ("A", "B"); de_flow := 0.0; de_color := "blue";
              de_width := 1.0 + 5.0 * 0.0 |} in
  drawn (visualize_max_flow G_AB ps "A" "B") = [d] ∧
  (∀ r x, r ∈ ps → carries (de_edge d) r x → x < 0) ∧
  0 <= de_flow d ∧
  ((∀ r x, r ∈ ps → carries (de_edge d) r x → x < 0) → de_flow d = 0.0) ∧
  1 <= de_width d.
Proof.
  cbv zeta. split; [by vm_compute|]. split.
  - intros r x Hr (nodes & _ & _ & Hx). revert Hx.
    repeat (apply elem_of_cons in Hr as [->|Hr]); [| |by inv Hr];
      intros [= <-]; by vm_compute.
  - apply (C10_aggregate_clamped_at_zero G_AB _ "A" "B").
    vm_compute. left.
Defined.

(** ** C2: a missing edge excludes its own segment only *)

(** C2 fails on the code.  The record [A, B, C] has all its nodes in the
    graph, the edge [(A, B)] and the missing pair [(B, C)]: validation
    keeps [(A, B)], leaves [(B, C)] out and logs it as a defect of that
    segment.  With a second record [A, B] holding a null flow, which
    validation counts as one more defect, the aggregation loop for
    [(A, B)] evaluates [max(_, None)]: the function raises [TypeError] and
    [(A, B)] is neither highlighted nor aggregated.  Without the second
    record [(A, B)] is highlighted with the flow 0.5. *)
Theorem C2_null_flow_record_blocks_highlighting :
  let r := rec ["A"; "B"; "C"] 0.5 in
  let r' := {| pi_path := Present ["A"; "B"]; pi_flow := Null |} in
  (∀ n, n ∈ ["A"; "B"; "C"] → has_node G_AB_C n = true) ∧
  is_edge G_AB_C ("A", "B") ∧ ¬ is_edge G_AB_C ("B", "C") ∧
  valid_flow_edges (validate G_AB_C [r; r']) = {[ ("A", "B") ]} ∧
  debug_log (validate G_AB_C [r; r'])
  = [EdgeNotInGraph "B" "C" 0 ["A"; "B"; "C"] 0.5;
     MissingFlow 1 ["A"; "B"]] ∧
  visualize_max_flow G_AB_C [r; r'] "A" "C" = Raised TypeError ∧
  highlighted (visualize_max_flow G_AB_C [r; r'] "A" "C") = [] ∧
  highlighted (visualize_max_flow G_AB_C [r] "A" "C") = [(("A", "B"), 0.5)].
Proof.
  cbv zeta. split_and!; try by vm_compute.
  intros n Hn. repeat (apply elem_of_cons in Hn as [->|Hn]); try done.
  by inv Hn.
Qed.

(** ** C3: a record with an unknown node *)






(** ** C4: exceptions *)

(** C4 fails on the code.  A record holding a null flow is counted as a
    defect by validation, but when its path shows an edge that another
    record has validated, the aggregation loop evaluates [max(_, None)] and
    the function raises [TypeError]; a record holding a null path makes
    [len(None)] raise as soon as one edge is highlighted. *)
Theorem C4_null_record_raises :
  visualize_max_flow G_AB
    [rec ["A"; "B"] 0.5; {| pi_path := Present ["A"; "B"]; pi_flow := Null |}]
    "A" "B" = Raised TypeError ∧
  path_issues_count
    (validate G_AB
       [rec ["A"; "B"] 0.5;
        {| pi_path := Present ["A"; "B"]; pi_flow := Null |}]) = 1%nat ∧
  visualize_max_flow G_AB
    [rec ["A"; "B"] 0.5; {| pi_path := Null; pi_flow := Present 1.0 |}]
    "A" "B" = Raised TypeError.
Proof. split_and!; by vm_compute. Qed.

(** ** C5: a source or sink that is not in the graph *)

(** C5, as stated, fails: with the source [Z] absent from the graph the
    function draws the plain graph itself and hands its caller the same
    [None] as the run with the source [A] that completes. *)
Lemma C5_counterexample :
  let ps := [rec ["A"; "B"] 0.5] in
  has_node G_AB "Z" = false ∧
  visualize_max_flow G_AB ps "Z" "B"
  = SourceNotFound (plain_figure "Graph (Source 'Z' not found)") ∧
  (∃ v fig, visualize_max_flow G_AB ps "A" "B" = Completed v fig) ∧
  caller_result (visualize_max_flow G_AB ps "Z" "B")
  = caller_result (visualize_max_flow G_AB ps "A" "B").
Proof. cbv zeta. split_and!; [done|by vm_compute|by eexists _, _|done]. Qed.

(** C5 (amended): when the source or the sink is not a node of the graph,
    the function prints an error, draws the plain graph without any
    highlighted edge under a title that names the missing end point, and
    returns [None] as every other run does; the flow paths are not read, so
    the outcome is the same for every list of records. *)
Theorem C5_missing_endpoint_plain_drawing (G : DiGraph) (ps : list path_info)
    (s t : string) :
  has_node G s = false ∨ has_node G t = false →
  (has_node G s = false →
     visualize_max_flow G ps s t
     = SourceNotFound
         (plain_figure ("Graph (Source '" +:+ s +:+ "' not found)"))) ∧
  (has_node G s = true →
     visualize_max_flow G ps s t
     = SinkNotFound (plain_figure ("Graph (Sink '" +:+ t +:+ "' not found)"))) ∧
  caller_result (visualize_max_flow G ps s t) = ReturnsNone ∧
  highlighted (visualize_max_flow G ps s t) = [] ∧
  ∀ ps', visualize_max_flow G ps' s t = visualize_max_flow G ps s t.
Proof.
  intros Habs. destruct (visualize_absent G ps s t Habs) as [Hfig Hind].
  split_and!; [| | | |done].
  - intros Hs. unfold visualize_max_flow. by rewrite Hs.
  - intros Hs. unfold visualize_max_flow. rewrite Hs. cbn [negb].
    destruct Habs as [?|Ht]; [congruence|]. by rewrite Ht.
  - by destruct Hfig as (title & [-> | ->]).
  - by destruct Hfig as (title & [-> | ->]).
Qed.

Lemma C5_witness :
  let ps := [rec ["A"; "B"] 0.5;
             {| pi_path := Present ["A"; "B"]; pi_flow := Null |}] in
  visualize_max_flow G_AB ps "A" "Z"
  = SinkNotFound (plain_figure "Graph (Sink 'Z' not found)") ∧
  caller_result (visualize_max_flow G_AB ps "A" "Z") = ReturnsNone ∧
  highlighted (visualize_max_flow G_AB ps "A" "Z") = [] ∧
  ∀ ps', visualize_max_flow G_AB ps' "A" "Z"
         = visualize_max_flow G_AB ps "A" "Z".
Proof.
  cbv zeta.
  destruct (C5_missing_endpoint_plain_drawing G_AB
              [rec ["A"; "B"] 0.5;
               {| pi_path := Present ["A"; "B"]; pi_flow := Null |}]
              "A" "Z" (or_intror eq_refl)) as (_ & Hsink & Hres & Hhl & Hind).
  split_and!; [|done..]. by apply Hsink.
Defined.

(** ** C6: the order of the records does not matter *)

(** C6: permuting the list of records changes neither the set of validated
    edges nor the number of defects nor the way the run ends; the
    highlighted edges come out as the same sequence of pairs with equal
    aggregated flows and widths, and that sequence is strictly increasing
    in the lexicographic order on (from, to). *)
Theorem C6_order_independent (G : DiGraph) (ps ps' : list path_info)
    (s t : string) :
  ps ≡ₚ ps' →
  valid_flow_edges (validate G ps) = valid_flow_edges (validate G ps') ∧
  path_issues_count (validate G ps) = path_issues_count (validate G ps') ∧
  caller_result (visualize_max_flow G ps s t)
  = caller_result (visualize_max_flow G ps' s t) ∧
  Forall2 (fun x y => x.1 = y.1 ∧ x.2 == y.2)
    (highlighted (visualize_max_flow G ps s t))
    (highlighted (visualize_max_flow G ps' s t)) ∧
  Forall2 same_style
    (drawn (visualize_max_flow G ps s t))
    (drawn (visualize_max_flow G ps' s t)) ∧
  StronglySorted edge_lt (highlighted (visualize_max_flow G ps s t)).*1.
Proof.
  intros Hperm. destruct (validate_perm G ps ps' Hperm) as [Hedges Hcount].
  assert (caller_result (visualize_max_flow G ps s t)
          = caller_result (visualize_max_flow G ps' s t) ∧
          Forall2 same_style (drawn (visualize_max_flow G ps s t))
            (drawn (visualize_max_flow G ps' s t))) as [Hres Hdrawn].
  { destruct (has_node G s) eqn:Hs; [destruct (has_node G t) eqn:Ht|].
    - pose proof (visualize_present G ps s t Hs Ht) as H.
      pose proof (visualize_present G ps' s t Hs Ht) as H'.
      rewrite <- Hedges in H'.
      pose proof (style_perm ps ps'
        (sorted_valid_flow_edges (valid_flow_edges (validate G ps))) Hperm)
        as Hsty.
      destruct (style_flow_edges ps _) as [l|[]],
               (style_flow_edges ps' _) as [l'|[]]; try done.
      + destruct H as (fig & -> & <-), H' as (fig' & -> & <-). by cbn.
      + rewrite H, H'. split; [done|constructor].
    - rewrite (proj2 (visualize_absent G ps s t (or_intror Ht)) ps').
      split; [done|]. apply Forall2_same_length_lookup_2; [done|].
      intros i x y Hx Hy. simplify_eq. by repeat split.
    - rewrite (proj2 (visualize_absent G ps s t (or_introl Hs)) ps').
      split; [done|]. apply Forall2_same_length_lookup_2; [done|].
      intros i x y Hx Hy. simplify_eq. by repeat split. }
  split_and!; try done.
  - assert (∀ o, highlighted o = (fun d => (de_edge d, de_flow d)) <$> drawn o)
      as Hhl by (by intros []).
    rewrite !Hhl. apply Forall2_fmap.
    eapply Forall2_impl; [exact Hdrawn|]. by intros d d' (? & ? & _).
  - rewrite highlighted_edges. apply drawn_edges_sorted.
Qed.

Lemma C6_witness :
  let ps := [rec ["B"; "C"] 0.5; rec ["A"; "B"; "C"] 0.25] in
  let ps' := [rec ["A"; "B"; "C"] 0.25; rec ["B"; "C"] 0.5] in
  highlighted (visualize_max_flow G_ABC ps "A" "C")
  = [(("A", "B"), 0.25); (("B", "C"), 0.5)] ∧
  Forall2 (fun x y => x.1 = y.1 ∧ x.2 == y.2)
    (highlighted (visualize_max_flow G_ABC ps "A" "C"))
    (highlighted (visualize_max_flow G_ABC ps' "A" "C")) ∧
  StronglySorted edge_lt (highlighted (visualize_max_flow G_ABC ps "A" "C")).*1.
Proof.
  cbv zeta. split; [by vm_compute|].
  assert ([rec ["B"; "C"] 0.5; rec ["A"; "B"; "C"] 0.25]
          ≡ₚ [rec ["A"; "B"; "C"] 0.25; rec ["B"; "C"] 0.5]) as Hperm
    by apply perm_swap.
  destruct (C6_order_independent G_ABC _ _ "A" "C" Hperm)
    as (_ & _ & _ & H1 & _ & H2).
  by split.
Defined.

(** ** C7: which records are skipped *)

(** C7, as stated, fails: the record [A, X] with flow 1.0 has a path and a
    flow, and is skipped with a defect all the same, because [X] is not a
    node of the graph. *)
Lemma C7_counterexample :
  let r := rec ["A"; "X"] 1.0 in
  skipped G_AB 0 r ∧ ¬ (path_missing r ∨ flow_missing r).
Proof.
  cbv zeta. split.
  - exists (NodeNotInGraph "X" 0 1.0). split; [done|]. by intros st.
  - by intros [[?|?]|?].
Qed.

(** C7 (amended): a record is skipped with a defect if and only if its node
    sequence is empty or absent, or its flow value is absent, or its path
    names a node that is not in the graph.  A present flow never causes the
    skip, zero included: a record with a flow value, a non-empty path and
    all its nodes in the graph reaches the segment loop, where each of its
    pairs that is an edge of the graph is added to [valid_flow_edges]. *)
Theorem C7_skipped_iff (G : DiGraph) (i : nat) (r : path_info) :
  (skipped G i r ↔ path_missing r ∨ flow_missing r ∨ unknown_node G r) ∧
  (∀ nodes flow,
     pi_path r = Present nodes → nodes ≠ [] → pi_flow r = Present flow →
     (∀ n, n ∈ nodes → has_node G n = true) →
     ¬ skipped G i r ∧
     check_record G i r = Walked nodes flow ∧
     ∀ st e, e ∈ segments nodes → is_edge G e →
             e ∈ valid_flow_edges (validate_record G i st r)).
Proof.
  assert (skipped G i r ↔ ∃ d, check_record G i r = Skipped d) as Hsk.
  { split; [intros (d & Hd & _); by exists d|]. intros [d Hd]. exists d.
    split; [done|]. intros st. unfold validate_record. by rewrite Hd. }
  split.
  - rewrite Hsk. unfold path_missing, flow_missing, unknown_node, check_record.
    destruct (pi_path r) as [| |[|n0 nodes0]] eqn:Hp; cbn [dict_get].
    1,2: split; [intros _; by left; left|by eexists].
    { split; [intros _; by left; right|by eexists]. }
    destruct (pi_flow r) as [| |flow0] eqn:Hf; cbn [dict_get].
    1,2: split; [intros _; by right; left|by eexists].
    destruct (List.find _ (n0 :: nodes0)) as [m|] eqn:Efind.
    + split; [|by eexists]. intros _. right; right.
      apply find_some in Efind as [Hin Hm%negb_true_iff].
      exists (n0 :: nodes0), m. by rewrite list_elem_of_In.
    + split; [by intros [? ?]|].
      intros [[?|?]|[?|(nodes & m & [= <-] & Hin & Hm)]]; try done.
      apply list_elem_of_In in Hin. apply (find_none _ _ Efind) in Hin.
      rewrite Hm in Hin. done.
  - intros nodes flow Hp Hne Hf Hall.
    pose proof (check_record_valid G i r nodes flow Hp Hne Hf Hall) as Hw.
    split_and!; [|done|].
    + rewrite Hsk. intros [d Hd]. congruence.
    + intros st e He Hedge. unfold validate_record. rewrite Hw, walk_edges.
      apply elem_of_union_r, elem_of_list_to_set, list_elem_of_filter. done.
Qed.

(** A record with flow zero is walked, and its edge is validated. *)
Lemma C7_witness :
  let r := rec ["A"; "B"] 0.0 in
  ¬ skipped G_AB 0 r ∧
  check_record G_AB 0 r = Walked ["A"; "B"] 0.0 ∧
  ∀ st e, e ∈ segments ["A"; "B"] → is_edge G_AB e →
          e ∈ valid_flow_edges (validate_record G_AB 0 st r).
Proof.
  cbv zeta.
  apply (proj2 (C7_skipped_iff G_AB 0 (rec ["A"; "B"] 0.0)) ["A"; "B"] 0.0);
    try done.
  intros n Hn. repeat (apply elem_of_cons in Hn as [->|Hn]); try done.
  by inv Hn.
Defined.

(** * Further properties of [visualize_max_flow] *)

(** ** When the function raises *)




(** ** The highlighted set *)

Lemma elem_of_valid_flow_edges (G : DiGraph) (ps : list path_info) (e : edge) :
  e ∈ valid_flow_edges (validate G ps) ↔
  ∃ r nodes flow,
    r ∈ ps ∧ pi_path r = Present nodes ∧ pi_flow r = Present flow ∧
    (∀ n, n ∈ nodes → has_node G n = true) ∧
    e ∈ segments nodes ∧ has_edge G e.1 e.2 = true.
Proof.
  rewrite elem_of_validate. split.
  - intros (r & Hr & (nodes & flow & Hw & He & Hedge)%elem_of_record_edges).
    apply check_record_walked in Hw as (Hp & Hf & _ & Hall).
    by exists r, nodes, flow.
  - intros (r & nodes & flow & Hr & Hp & Hf & Hall & He & Hedge).
    exists r. split; [done|]. apply elem_of_record_edges.
    exists nodes, flow. split_and!; [|done..].
    apply check_record_valid; try done. intros ->. by inv He.
Qed.

(** X2: in a run that completes, a pair is highlighted exactly when it is
    an edge of the graph and a consecutive pair of some record that has a
    path, a flow value and only nodes of the graph; however many records
    show it, it is highlighted once. *)
Theorem highlighted_once_each (G : DiGraph) (ps : list path_info)
    (s t : string) (v : validation) (fig : figure) :
  visualize_max_flow G ps s t = Completed v fig →
  NoDup (highlighted (Completed v fig)).*1 ∧
  length (fig_flow_edges fig) = size (valid_flow_edges (validate G ps)) ∧
  ∀ e, e ∈ (highlighted (Completed v fig)).*1 ↔
       ∃ r nodes flow,
         r ∈ ps ∧ pi_path r = Present nodes ∧ pi_flow r = Present flow ∧
         (∀ n, n ∈ nodes → has_node G n = true) ∧
         e ∈ segments nodes ∧ has_edge G e.1 e.2 = true.
Proof.
  intros (_ & _ & -> & Hsty)%visualize_completed.
  rewrite highlighted_edges. cbn [drawn].
  rewrite (styles_edges ps _ _ Hsty). split_and!.
  - apply NoDup_sorted_valid_flow_edges.
  - rewrite <- (Forall2_length _ _ _ Hsty). unfold sorted_valid_flow_edges.
    by rewrite merge_sort_Permutation.
  - intros e. by rewrite elem_of_sorted_valid_flow_edges,
      elem_of_valid_flow_edges.
Qed.

Lemma highlighted_once_each_witness :
  let ps := [rec ["A"; "B"; "C"] 0.5; rec ["A"; "B"] 1.0;
             rec ["B"; "C"; "A"] 0.25] in
  ∃ v fig, visualize_max_flow G_ABC ps "A" "C" = Completed v fig ∧
           NoDup (highlighted (Completed v fig)).*1 ∧
           length (fig_flow_edges fig) = 2%nat.
Proof.
  cbv zeta. eexists _, _. split; [by vm_compute|].
  match goal with
  | |- NoDup (highlighted (Completed ?v ?fig)).*1 ∧ _ =>
      destruct (highlighted_once_each G_ABC
                  [rec ["A"; "B"; "C"] 0.5; rec ["A"; "B"] 1.0;
                   rec ["B"; "C"; "A"] 0.25] "A" "C" v fig)
        as (Hnd & _ & _); [by vm_compute|]
  end.
  split; [exact Hnd|reflexivity].
Defined.

(** ** The defect counter *)

Lemma validate_from_count_log (G : DiGraph) (ps : list path_info) :
  ∀ i st, path_issues_count st = length (debug_log st) →
          path_issues_count (validate_from G i st ps)
          = length (debug_log (validate_from G i st ps)).
Proof.
  induction ps as [|r ps IH]; intros i st Hst; [done|].
  cbn [validate_from]. apply IH.
  rewrite validate_record_count, validate_record_log, length_app,
    record_log_length. lia.
Qed.

(** X3: the defect counter and the debug output stay in step: at the end
    of validation [path_issues_count] is the number of defect lines
    printed. *)
Theorem issues_count_is_log_length (G : DiGraph) (ps : list path_info) :
  path_issues_count (validate G ps) = length (debug_log (validate G ps)).
Proof. unfold validate. by apply validate_from_count_log. Qed.

Lemma record_issues_zero (G : DiGraph) (r : path_info) :
  record_issues G r = 0%nat ↔
  ∃ nodes flow,
    pi_path r = Present nodes ∧ nodes ≠ [] ∧ pi_flow r = Present flow ∧
    (∀ n, n ∈ nodes → has_node G n = true) ∧
    ∀ e, e ∈ segments nodes → has_edge G e.1 e.2 = true.
Proof.
  unfold record_issues, record_log. split.
  - destruct (check_record G 0 r) as [d|nodes flow] eqn:E; [done|].
    rewrite length_fmap. intros Hnil%length_zero_iff_nil.
    apply check_record_walked in E as (Hp & Hf & Hne & Hall).
    exists nodes, flow. split_and!; try done.
    intros e He. destruct (has_edge G e.1 e.2) eqn:Hedge; [done|].
    assert (e ∈ filter (fun e => ¬ is_edge G e) (segments nodes)) as Hin.
    { apply list_elem_of_filter. split; [|done]. unfold is_edge. congruence. }
    rewrite Hnil in Hin. by inv Hin.
  - intros (nodes & flow & Hp & Hne & Hf & Hall & Hedges).
    rewrite (check_record_valid G 0 r nodes flow) by done.
    rewrite length_fmap. apply length_zero_iff_nil, elem_of_nil_inv.
    intros e [Hno He]%list_elem_of_filter. apply Hno. by apply Hedges.
Qed.

(** X9: validation ends with zero defects exactly when every record has a
    non-empty path, a flow value, only nodes of the graph, and only edges
    of the graph as consecutive pairs. *)
Theorem no_issues_iff_all_clean (G : DiGraph) (ps : list path_info) :
  path_issues_count (validate G ps) = 0%nat ↔
  ∀ r, r ∈ ps →
    ∃ nodes flow,
      pi_path r = Present nodes ∧ nodes ≠ [] ∧ pi_flow r = Present flow ∧
      (∀ n, n ∈ nodes → has_node G n = true) ∧
      ∀ e, e ∈ segments nodes → has_edge G e.1 e.2 = true.
Proof.
  rewrite validate_count. induction ps as [|r ps IH]; cbn [sum_list_with].
  - split; [by intros _ r ?%elem_of_nil|done].
  - rewrite Nat.eq_add_0, IH, record_issues_zero. split.
    + intros [Hr Hps] r' [->|Hr']%elem_of_cons; [done|by apply Hps].
    + intros H. split; [apply H; by left|]. intros r' Hr'. apply H. by right.
Qed.

(** ** The width floor *)

Lemma drawn_width_linear (G : DiGraph) (ps : list path_info) (s t : string)
    (d : drawn_edge) :
  d ∈ drawn (visualize_max_flow G ps s t) →
  de_width d = 1.0 + 5.0 * de_flow d.
Proof.
  intros [_ (_ & Hmax & _ & Hw)]%drawn_inv.
  unfold max_flow_on_this_edge in Hmax.
  apply max_flow_from_spec in Hmax as (H0 & _).
  rewrite Hw. unfold edge_width, py_max.
  assert (0.5 < 1.0 + 5.0 * de_flow d) as Hlt by lra.
  pose proof (proj1 (Qlt_alt _ _) Hlt) as Hc. by rewrite Hc.
Qed.

(** X4: the floor 0.5 of the width rule never applies to a drawn flow
    edge: [max] returns its second argument, so the width is the value of
    the expression 1.0 + 5.0 * aggregate; among the flow edges of one
    picture an edge with a larger aggregate is never drawn thinner. *)
Theorem drawn_width_is_linear_in_flow (G : DiGraph) (ps : list path_info)
    (s t : string) (d : drawn_edge) :
  d ∈ drawn (visualize_max_flow G ps s t) →
  de_width d = 1.0 + 5.0 * de_flow d ∧
  ∀ d', d' ∈ drawn (visualize_max_flow G ps s t) →
        de_flow d <= de_flow d' → de_width d <= de_width d'.
Proof.
  intros Hd. pose proof (drawn_width_linear G ps s t d Hd) as Hw.
  split; [done|]. intros d' Hd' Hle.
  pose proof (drawn_width_linear G ps s t d' Hd') as Hw'.
  rewrite Hw, Hw'. lra.
Qed.

Lemma drawn_width_is_linear_in_flow_witness :
  let ps := [rec ["A"; "B"; "C"] 0.5; rec ["B"; "C"] 0.7] in
  let d := {| de_edge := ("A", "B"); de_flow := 0.5; de_color := "blue";
              de_width := 1.0 + 5.0 * 0.5 |} in
  let d' := {| de_edge := ("B", "C"); de_flow := 0.7; de_color := "blue";
               de_width := 1.0 + 5.0 * 0.7 |} in
  d ∈ drawn (visualize_max_flow G_ABC ps "A" "C") ∧
  d' ∈ drawn (visualize_max_flow G_ABC ps "A" "C") ∧
  de_width d = 1.0 + 5.0 * de_flow d ∧
  de_width d <= de_width d'.
Proof.
  cbv zeta.
  assert ({| de_edge := ("A", "B"); de_flow := 0.5; de_color := "blue";
             de_width := 1.0 + 5.0 * 0.5 |}
          ∈ drawn (visualize_max_flow G_ABC
                     [rec ["A"; "B"; "C"] 0.5; rec ["B"; "C"] 0.7] "A" "C"))
    as Hd by (vm_compute; left).
  assert ({| de_edge := ("B", "C"); de_flow := 0.7; de_color := "blue";
             de_width := 1.0 + 5.0 * 0.7 |}
          ∈ drawn (visualize_max_flow G_ABC
                     [rec ["A"; "B"; "C"] 0.5; rec ["B"; "C"] 0.7] "A" "C"))
    as Hd' by (vm_compute; right; left).
  split_and!; [exact Hd|exact Hd'|..].
  - exact (proj1 (drawn_width_is_linear_in_flow G_ABC _ "A" "C" _ Hd)).
  - apply (proj2 (drawn_width_is_linear_in_flow G_ABC _ "A" "C" _ Hd) _ Hd').
    by vm_compute.
Defined.

(** ** Paths of one node *)

(** X5: a record whose path is a single node of the graph, with a flow
    value, passes validation without a trace: it adds no edge, counts no
    defect and prints nothing, and it leaves every running maximum of the
    aggregation loop as it is. *)
Theorem single_node_path_is_silent (G : DiGraph) (r : path_info) (n : string)
    (flow : Q) :
  pi_path r = Present [n] → pi_flow r = Present flow →
  has_node G n = true →
  (∀ i st, validate_record G i st r = st) ∧
  (∀ u v cur, scan_record u v cur r = Ok cur).
Proof.
  intros Hp Hf Hn. split.
  - intros i st. unfold validate_record.
    rewrite (check_record_valid G i r [n] flow); try done.
    by intros m ->%list_elem_of_singleton.
  - intros u v cur. unfold scan_record. by rewrite Hp.
Qed.

Lemma single_node_path_is_silent_witness :
  (∀ i st, validate_record G_AB i st (rec ["A"] 1.0) = st) ∧
  (∀ u v cur, scan_record u v cur (rec ["A"] 1.0) = Ok cur).
Proof.
  apply (single_node_path_is_silent G_AB (rec ["A"] 1.0) "A" 1.0); reflexivity.
Defined.

(** ** Longer lists of records *)

Lemma validate_from_app (G : DiGraph) (ps qs : list path_info) :
  ∀ i st, validate_from G i st (ps ++ qs)
          = validate_from G (i + length ps) (validate_from G i st ps) qs.
Proof.
  induction ps as [|r ps IH]; intros i st; cbn [app validate_from length].
  - by rewrite Nat.add_0_r.
  - rewrite IH. f_equal. lia.
Qed.

(** X6: validating two lists one after the other: the validated edges are
    the union of the edges each list validates, the defects add up, and
    the debug lines of the first list come first, followed by those of the
    second list numbered from the length of the first. *)
Theorem validate_app (G : DiGraph) (ps qs : list path_info) :
  valid_flow_edges (validate G (ps ++ qs))
  = valid_flow_edges (validate G ps) ∪ valid_flow_edges (validate G qs) ∧
  path_issues_count (validate G (ps ++ qs))
  = (path_issues_count (validate G ps) + path_issues_count (validate G qs))%nat ∧
  debug_log (validate G (ps ++ qs))
  = debug_log (validate G ps)
    ++ debug_log (validate_from G (length ps) no_validation qs).
Proof.
  split_and!.
  - rewrite !validate_edges, fmap_app. apply union_list_app_L.
  - rewrite !validate_count. apply sum_list_with_app.
  - unfold validate. rewrite validate_from_app. cbn [Nat.add].
    generalize (validate_from G 0 no_validation ps). generalize (length ps).
    induction qs as [|r qs IH]; intros i st; cbn [validate_from].
    + by rewrite app_nil_r.
    + rewrite IH, (IH _ (validate_record _ _ no_validation r)).
      rewrite !validate_record_log. cbn [debug_log no_validation app].
      by rewrite app_assoc.
Qed.

(** X7: more records never take anything away: when every record of one
    list occurs in another and both runs complete, each edge highlighted
    for the first list is highlighted for the second with an aggregate at
    least as large. *)
Theorem more_records_more_flow (G : DiGraph) (ps ps' : list path_info)
    (s t : string) (v v' : validation) (fig fig' : figure) :
  (∀ r, r ∈ ps → r ∈ ps') →
  visualize_max_flow G ps s t = Completed v fig →
  visualize_max_flow G ps' s t = Completed v' fig' →
  ∀ e f, (e, f) ∈ highlighted (Completed v fig) →
         ∃ f', (e, f') ∈ highlighted (Completed v' fig') ∧ f <= f'.
Proof.
  intros Hsub Hrun Hrun' e f (d & Hd & <- & <-)%highlighted_drawn.
  rewrite <- Hrun in Hd. apply drawn_inv in Hd as [Hin (_ & Hmax & _)].
  apply visualize_completed in Hrun' as (_ & _ & -> & Hsty').
  assert (de_edge d ∈ valid_flow_edges (validate G ps')) as Hin'.
  { apply elem_of_validate in Hin as (r & Hr & He). apply elem_of_validate.
    exists r. split; [by apply Hsub|done]. }
  apply elem_of_sorted_valid_flow_edges, list_elem_of_lookup in Hin'
    as [k Hk].
  destruct (Forall2_lookup_l _ _ _ _ _ Hsty' Hk) as (d' & Hd' & He' & Hmax' & _).
  exists (de_flow d'). split.
  - apply highlighted_drawn. exists d'. split; [|done].
    by eapply list_elem_of_lookup_2.
  - by apply (max_flow_le_perm ps ps' (de_edge d)).
Qed.

Lemma more_records_more_flow_witness :
  ∃ f', (("A", "B"), f')
        ∈ highlighted (visualize_max_flow G_AB
                         [rec ["A"; "B"] 0.3; rec ["A"; "B"] 0.7] "A" "B")
        ∧ 0.3 <= f'.
Proof.
  assert (∃ v fig, visualize_max_flow G_AB [rec ["A"; "B"] 0.3] "A" "B"
                   = Completed v fig ∧
                   (("A", "B"), 0.3) ∈ highlighted (Completed v fig))
    as (v & fig & Hrun & Hin).
  { eexists _, _. split; [by vm_compute|]. vm_compute. left. }
  assert (∃ v' fig',
            visualize_max_flow G_AB
              [rec ["A"; "B"] 0.3; rec ["A"; "B"] 0.7] "A" "B"
            = Completed v' fig') as (v' & fig' & Hrun').
  { eexists _, _. by vm_compute. }
  rewrite Hrun'.
  apply (more_records_more_flow G_AB [rec ["A"; "B"] 0.3]
           [rec ["A"; "B"] 0.3; rec ["A"; "B"] 0.7] "A" "B" v v' fig fig');
    try done.
  intros r ->%list_elem_of_singleton. left.
Defined.

(** ** Repeated records *)

Lemma max_flow_same_set (ps ps' : list path_info) (e : edge) :
  (∀ r, r ∈ ps ↔ r ∈ ps') →
  match max_flow_on_this_edge ps e, max_flow_on_this_edge ps' e with
  | Ok f, Ok f' => f == f'
  | Raise _, Raise _ => True
  | _, _ => False
  end.
Proof.
  intros Hset.
  assert (∀ l l' : list path_info, (∀ r, r ∈ l' → r ∈ l) → ∀ f,
            max_flow_on_this_edge l e = Ok f →
            ∃ f', max_flow_on_this_edge l' e = Ok f') as Hok.
  { intros l l' Hl f (_ & _ & _ & Hnt)%max_flow_from_spec.
    apply max_flow_from_total. intros r Hr. by apply Hnt, Hl. }
  destruct (max_flow_on_this_edge ps e) as [f|x] eqn:E,
           (max_flow_on_this_edge ps' e) as [f'|x'] eqn:E'; try done.
  - apply Qle_antisym.
    + apply (max_flow_le_perm ps ps' e); [|done..]. intros r. apply Hset.
    + apply (max_flow_le_perm ps' ps e); [|done..]. intros r. apply Hset.
  - destruct (Hok ps ps' (fun r => proj2 (Hset r)) f E) as [? ?]. congruence.
  - destruct (Hok ps' ps (fun r => proj1 (Hset r)) f' E') as [? ?]. congruence.
Qed.

Lemma style_same_set (ps ps' : list path_info) (es : list edge) :
  (∀ r, r ∈ ps ↔ r ∈ ps') →
  match style_flow_edges ps es, style_flow_edges ps' es with
  | Ok l, Ok l' => Forall2 same_style l l'
  | Raise _, Raise _ => True
  | _, _ => False
  end.
Proof.
  intros Hset. induction es as [|e es IH]; [constructor|].
  rewrite !style_flow_edges_cons.
  pose proof (max_flow_same_set ps ps' e Hset) as He.
  destruct (max_flow_on_this_edge ps e) as [f|],
           (max_flow_on_this_edge ps' e) as [f'|]; try done.
  destruct (style_flow_edges ps es) as [l|],
           (style_flow_edges ps' es) as [l'|]; try done.
  constructor; [|done]. split_and!; try done. by apply edge_width_proper.
Qed.

(** X8: only the set of records matters to the picture: two lists with
    the same records, whatever their order and however often each record
    is repeated, validate the same edges, end the same way and highlight
    the same edges with equal aggregates and widths.  (The defect counter
    does count repetitions.) *)
Theorem picture_depends_on_record_set (G : DiGraph) (ps ps' : list path_info)
    (s t : string) :
  (∀ r, r ∈ ps ↔ r ∈ ps') →
  valid_flow_edges (validate G ps) = valid_flow_edges (validate G ps') ∧
  caller_result (visualize_max_flow G ps s t)
  = caller_result (visualize_max_flow G ps' s t) ∧
  Forall2 same_style
    (drawn (visualize_max_flow G ps s t))
    (drawn (visualize_max_flow G ps' s t)).
Proof.
  intros Hset.
  assert (valid_flow_edges (validate G ps)
          = valid_flow_edges (validate G ps')) as Hedges.
  { apply set_eq. intros e. rewrite !elem_of_validate. by setoid_rewrite Hset. }
  split; [done|].
  destruct (has_node G s) eqn:Hs; [destruct (has_node G t) eqn:Ht|].
  - pose proof (visualize_present G ps s t Hs Ht) as H.
    pose proof (visualize_present G ps' s t Hs Ht) as H'.
    rewrite <- Hedges in H'.
    pose proof (style_same_set ps ps'
      (sorted_valid_flow_edges (valid_flow_edges (validate G ps))) Hset)
      as Hsty.
    destruct (style_flow_edges ps _) as [l|[]],
             (style_flow_edges ps' _) as [l'|[]]; try done.
    + destruct H as (fig & -> & <-), H' as (fig' & -> & <-). by cbn.
    + rewrite H, H'. split; [done|constructor].
  - rewrite (proj2 (visualize_absent G ps s t (or_intror Ht)) ps').
    split; [done|]. apply Forall2_same_length_lookup_2; [done|].
    intros i x y Hx Hy. simplify_eq. by repeat split.
  - rewrite (proj2 (visualize_absent G ps s t (or_introl Hs)) ps').
    split; [done|]. apply Forall2_same_length_lookup_2; [done|].
    intros i x y Hx Hy. simplify_eq. by repeat split.
Qed.

Lemma picture_depends_on_record_set_witness :
  let ps := [rec ["A"; "B"] 0.3; rec ["A"; "B"; "C"] 0.7] in
  let ps' := [rec ["A"; "B"; "C"] 0.7; rec ["A"; "B"] 0.3;
              rec ["A"; "B"; "C"] 0.7] in
  Forall2 same_style
    (drawn (visualize_max_flow G_ABC ps "A" "C"))
    (drawn (visualize_max_flow G_ABC ps' "A" "C")).
Proof.
  cbv zeta.
  apply (picture_depends_on_record_set G_ABC
           [rec ["A"; "B"] 0.3; rec ["A"; "B"; "C"] 0.7]
           [rec ["A"; "B"; "C"] 0.7; rec ["A"; "B"] 0.3;
            rec ["A"; "B"; "C"] 0.7] "A" "C").
  intros r. rewrite !elem_of_cons, !elem_of_nil. tauto.
Defined.

(** * The graph built by [create_graph] (lines 64-79) *)

Lemma touch_node_lookup (m n : string) (nodes : gmap string (option string)) :
  touch_node m nodes !! n
  = match nodes !! n with
    | Some x => Some x
    | None => if decide (n = m) then Some None else None
    end.
Proof.
  unfold touch_node. destruct (nodes !! m) as [y|] eqn:Em.
  - destruct (nodes !! n) eqn:En; [done|]. case_decide; [congruence|done].
  - destruct (decide (n = m)) as [->|Hne].
    + by rewrite lookup_insert_eq, Em.
    + rewrite lookup_insert_ne by done. by destruct (nodes !! n).
Qed.

Lemma create_graph_unfold (edges_df : list (string * string * Q))
    (companies_df : list (string * string)) :
  create_graph edges_df companies_df
  = add_edge_rows (add_company_rows empty_graph companies_df) edges_df.
Proof. reflexivity. Qed.

Lemma add_company_rows_cons (G : DiGraph) (c : string * string)
    (rows : list (string * string)) :
  add_company_rows G (c :: rows) = add_company_rows (add_node c.1 c.2 G) rows.
Proof. reflexivity. Qed.

Lemma add_edge_rows_cons (G : DiGraph) (e : string * string * Q)
    (rows : list (string * string * Q)) :
  add_edge_rows G (e :: rows) = add_edge_rows (add_edge e.1.1 e.1.2 e.2 G) rows.
Proof. reflexivity. Qed.

Lemma add_company_rows_adj (rows : list (string * string)) :
  ∀ G, G_adj (add_company_rows G rows) = G_adj G.
Proof.
  induction rows as [|c rows IH]; intros G; [done|].
  rewrite add_company_rows_cons. by rewrite IH.
Qed.

Lemma add_company_rows_other (rows : list (string * string)) (n : string) :
  n ∉ rows.*1 → ∀ G, G_node (add_company_rows G rows) !! n = G_node G !! n.
Proof.
  induction rows as [|[m s] rows IH]; intros Hn G; [done|].
  rewrite add_company_rows_cons. cbn [fst snd]. rewrite fmap_cons in Hn.
  apply not_elem_of_cons in Hn as [Hne Hn].
  rewrite (IH Hn (add_node m s G)). cbn. by rewrite lookup_insert_ne.
Qed.

Lemma add_company_rows_last (rows1 rows2 : list (string * string))
    (n s : string) (G : DiGraph) :
  n ∉ rows2.*1 →
  G_node (add_company_rows G (rows1 ++ (n, s) :: rows2)) !! n = Some (Some s).
Proof.
  intros Hn. unfold add_company_rows. rewrite foldl_app. cbn [foldl].
  rewrite (add_company_rows_other rows2 n Hn). cbn. apply lookup_insert_eq.
Qed.

Lemma add_company_rows_node (rows : list (string * string)) (n : string) :
  ∀ G, is_Some (G_node (add_company_rows G rows) !! n)
       ↔ is_Some (G_node G !! n) ∨ n ∈ rows.*1.
Proof.
  induction rows as [|[m s] rows IH]; intros G.
  - cbn. rewrite elem_of_nil. tauto.
  - rewrite add_company_rows_cons. cbn [fst snd].
    rewrite (IH (add_node m s G)), fmap_cons,
      elem_of_cons. cbn. destruct (decide (n = m)) as [->|Hne].
    + rewrite lookup_insert_eq. split; [intros _; right; by left|by left; eexists].
    + rewrite lookup_insert_ne by done. tauto.
Qed.

Lemma add_edge_rows_node (rows : list (string * string * Q)) (n : string) :
  ∀ G, G_node (add_edge_rows G rows) !! n
       = match G_node G !! n with
         | Some x => Some x
         | None =>
             if decide (Exists (fun e => n = e.1.1 ∨ n = e.1.2) rows)
             then Some None else None
         end.
Proof.
  induction rows as [|[[u v] w] rows IH]; intros G.
  - cbn. destruct (G_node G !! n); [done|]. rewrite decide_False; [done|].
    by intros ?%Exists_nil.
  - rewrite add_edge_rows_cons. cbn [fst snd].
    rewrite (IH (add_edge u v w G)). cbn [G_node add_edge].
    rewrite !touch_node_lookup. destruct (G_node G !! n) as [x|]; [done|].
    destruct (decide (n = u)) as [->|Hu].
    + rewrite (decide_True (P := Exists _ (_ :: _)));
        [by case_decide|]. apply Exists_cons. left. by left.
    + destruct (decide (n = v)) as [->|Hv].
      * rewrite (decide_True (P := Exists _ (_ :: _))); [done|].
        apply Exists_cons. left. by right.
      * destruct (decide (Exists (fun e => n = e.1.1 ∨ n = e.1.2) rows))
          as [He|Hno].
        -- rewrite decide_True; [done|]. apply Exists_cons. by right.
        -- rewrite decide_False; [done|].
           intros [[?|?]|?]%Exists_cons; done.
Qed.

Lemma add_edge_rows_adj_other (rows : list (string * string * Q))
    (u v : string) :
  (∀ w, (u, v, w) ∉ rows) →
  ∀ G, G_adj (add_edge_rows G rows) !! (u, v) = G_adj G !! (u, v).
Proof.
  induction rows as [|[[u' v'] w'] rows IH]; intros Hno G; [done|].
  rewrite add_edge_rows_cons. cbn [fst snd]. rewrite IH.
  - cbn. rewrite lookup_insert_ne; [done|]. intros [= -> ->].
    apply (Hno w'). by left.
  - intros w Hw. apply (Hno w). by right.
Qed.

Lemma add_edge_rows_adj (rows : list (string * string * Q)) (u v : string) :
  ∀ G, is_Some (G_adj (add_edge_rows G rows) !! (u, v))
       ↔ is_Some (G_adj G !! (u, v)) ∨ ∃ w, (u, v, w) ∈ rows.
Proof.
  induction rows as [|[[u' v'] w'] rows IH]; intros G.
  - cbn. split; [by left|]. by intros [?|(? & ?%elem_of_nil)].
  - rewrite add_edge_rows_cons. cbn [fst snd].
    rewrite (IH (add_edge u' v' w' G)). cbn.
    destruct (decide ((u', v') = (u, v))) as [[= -> ->]|Hne].
    + rewrite lookup_insert_eq. split; [|by left; eexists].
      intros _. right. exists w'. by left.
    + rewrite lookup_insert_ne by done. split.
      * intros [?|(w & Hw)]; [by left|]. right. exists w. by right.
      * intros [?|(w & [?|Hw]%elem_of_cons)]; [by left|by simplify_eq|].
        right. by exists w.
Qed.

Lemma add_company_rows_sector (rows : list (string * string)) (n : string) :
  n ∈ rows.*1 →
  ∀ G, ∃ s, G_node (add_company_rows G rows) !! n = Some (Some s).
Proof.
  induction rows as [|[m s] rows IH]; intros Hn G; [by inv Hn|].
  rewrite add_company_rows_cons. cbn [fst snd].
  destruct (decide (n ∈ rows.*1)) as [Hin|Hout]; [by apply IH|].
  rewrite fmap_cons in Hn. apply elem_of_cons in Hn as [->|Hn]; [|done].
  exists s. rewrite add_company_rows_other by done. cbn.
  apply lookup_insert_eq.
Qed.

Lemma create_graph_node_attr (edges_df : list (string * string * Q))
    (companies_df : list (string * string)) (n : string) :
  (n ∈ companies_df.*1 →
   ∃ s, G_node (create_graph edges_df companies_df) !! n = Some (Some s)) ∧
  (n ∉ companies_df.*1 →
   G_node (create_graph edges_df companies_df) !! n
   = if decide (Exists (fun e => n = e.1.1 ∨ n = e.1.2) edges_df)
     then Some None else None).
Proof.
  rewrite create_graph_unfold, add_edge_rows_node. split.
  - intros Hn.
    destruct (add_company_rows_sector companies_df n Hn empty_graph)
      as [s ->]. by exists s.
  - intros Hn. rewrite add_company_rows_other by done. cbn.
    by rewrite lookup_empty.
Qed.

(** X10: the nodes of the graph are the companies of the company table
    together with both end points of every row of the edge table. *)
Theorem create_graph_nodes (edges_df : list (string * string * Q))
    (companies_df : list (string * string)) (n : string) :
  has_node (create_graph edges_df companies_df) n = true ↔
  n ∈ companies_df.*1 ∨
  ∃ e, e ∈ edges_df ∧ (n = e.1.1 ∨ n = e.1.2).
Proof.
  unfold has_node. rewrite bool_decide_eq_true, create_graph_unfold,
    add_edge_rows_node.
  pose proof (add_company_rows_node companies_df n empty_graph) as Hc.
  cbn [G_node empty_graph] in Hc. rewrite lookup_empty in Hc.
  destruct (G_node (add_company_rows empty_graph companies_df) !! n) as [x|].
  - split; [|by eexists]. intros _.
    destruct (proj1 Hc) as [[? ?]|?]; [by eexists|done|by left].
  - case_decide as He; rewrite Exists_exists in He.
    + split; [by right|by eexists].
    + split; [by intros [? ?]|]. intros [Hin|?]; [|done].
      destruct (proj2 Hc) as [? ?]; [by right|done].
Qed.

(** X11: the edges of the graph are the ordered pairs of the rows of the
    edge table, in the direction of the row; both end points of every edge
    are nodes of the graph. *)
Theorem create_graph_edges (edges_df : list (string * string * Q))
    (companies_df : list (string * string)) (u v : string) :
  (has_edge (create_graph edges_df companies_df) u v = true
   ↔ ∃ w, (u, v, w) ∈ edges_df) ∧
  (has_edge (create_graph edges_df companies_df) u v = true →
   has_node (create_graph edges_df companies_df) u = true ∧
   has_node (create_graph edges_df companies_df) v = true).
Proof.
  assert (has_edge (create_graph edges_df companies_df) u v = true
          ↔ ∃ w, (u, v, w) ∈ edges_df) as Hiff.
  { unfold has_edge. rewrite bool_decide_eq_true, create_graph_unfold,
      add_edge_rows_adj, add_company_rows_adj. cbn. rewrite lookup_empty.
    split; [intros [[? ?]|?]; done|by right]. }
  split; [done|]. intros [w Hw]%Hiff.
  assert (∀ n, n = u ∨ n = v →
               has_node (create_graph edges_df companies_df) n = true) as Hn.
  { intros n Hend. unfold has_node. apply bool_decide_eq_true.
    destruct (create_graph_node_attr edges_df companies_df n) as [Hc Hnc].
    destruct (decide (n ∈ companies_df.*1)) as [Hin|Hout].
    - destruct (Hc Hin) as [s ->]. by eexists.
    - rewrite (Hnc Hout), decide_True; [by eexists|].
      apply Exists_exists. by exists (u, v, w). }
  split; apply Hn; [by left|by right].
Qed.

Lemma create_graph_edges_witness :
  has_node (create_graph [("A", "B", 1); ("B", "C", 2)] []) "A" = true ∧
  has_node (create_graph [("A", "B", 1); ("B", "C", 2)] []) "B" = true.
Proof.
  apply (proj2 (create_graph_edges [("A", "B", 1); ("B", "C", 2)] [] "A" "B")).
  reflexivity.
Defined.

(** X12: of several rows of the edge table on the same ordered pair, the
    last one gives the edge its weight. *)
Theorem create_graph_last_weight_wins
    (rows1 rows2 : list (string * string * Q))
    (companies_df : list (string * string)) (u v : string) (w : Q) :
  (∀ w', (u, v, w') ∉ rows2) →
  G_adj (create_graph (rows1 ++ (u, v, w) :: rows2) companies_df) !! (u, v)
  = Some w.
Proof.
  intros Hno. rewrite create_graph_unfold. unfold add_edge_rows.
  rewrite foldl_app. cbn [foldl].
  rewrite (add_edge_rows_adj_other rows2 u v Hno). cbn.
  apply lookup_insert_eq.
Qed.

Lemma create_graph_last_weight_wins_witness :
  G_adj (create_graph ([("A", "B", 1)] ++ ("A", "B", 2) :: [("B", "A", 3)]) [])
    !! ("A", "B") = Some 2.
Proof.
  apply (create_graph_last_weight_wins [("A", "B", 1)] [("B", "A", 3)] []
           "A" "B" 2).
  intros w' [?|?%elem_of_nil]%elem_of_cons; [done|done].
Defined.

(** X13: the sector of a node is the one of the last row of the company
    table that names it, and the edge table never changes it; a node that
    only the edge table names has no sector attribute. *)
Theorem create_graph_sectors (edges_df : list (string * string * Q))
    (rows1 rows2 : list (string * string)) (n s : string) :
  (n ∉ rows2.*1 →
   G_node (create_graph edges_df (rows1 ++ (n, s) :: rows2)) !! n
   = Some (Some s)) ∧
  (∀ companies_df e,
     n ∉ companies_df.*1 → e ∈ edges_df → n = e.1.1 ∨ n = e.1.2 →
     G_node (create_graph edges_df companies_df) !! n = Some None).
Proof.
  split.
  - intros Hn. rewrite create_graph_unfold, add_edge_rows_node.
    by rewrite add_company_rows_last.
  - intros companies_df e Hn He Hend.
    rewrite create_graph_unfold, add_edge_rows_node.
    rewrite (add_company_rows_other companies_df n Hn). cbn.
    rewrite lookup_empty. rewrite decide_True; [done|].
    apply Exists_exists. by exists e.
Qed.

Lemma create_graph_sectors_witness :
  G_node (create_graph [("A", "B", 1)]
            ([("A", "Tech")] ++ ("A", "Retail") :: [])) !! "A"
  = Some (Some "Retail") ∧
  G_node (create_graph [("A", "B", 1)] [("A", "Tech")]) !! "B" = Some None.
Proof.
  pose proof (create_graph_sectors [("A", "B", 1)] [("A", "Tech")] []
                "A" "Retail") as [H1 _].
  pose proof (create_graph_sectors [("A", "B", 1)] [] [] "B" "x") as [_ H2].
  split.
  - apply H1. by intros ?%elem_of_nil.
  - apply (H2 [("A", "Tech")] ("A", "B", 1)); [|by left|by right].
    by intros ?%list_elem_of_singleton.
Defined.

(** * The widths of [visualize_graph] (lines 85-96) *)

Lemma py_max_list_in (rest : list Q) :
  ∀ x, py_max_list x rest ∈ x :: rest.
Proof.
  unfold py_max_list.
  induction rest as [|y rest IH]; intros x; cbn [foldl]; [by left|].
  specialize (IH (py_max x y)).
  apply elem_of_cons in IH as [->|Hin]; [|by do 2 right].
  destruct (py_max_cases x y) as [-> | ->]; [by left|right; by left].
Qed.

(** X15: when there are edges but none has a positive weight, every edge
    gets the width 1.0, whatever its own weight. *)
Theorem normalize_edge_weights_no_positive (ws : list Q) :
  (∀ w, w ∈ ws → w <= 0) →
  normalize_edge_weights ws = (fun _ => 1.0) <$> ws.
Proof.
  intros Hall. destruct ws as [|w0 rest]; [done|].
  unfold normalize_edge_weights. cbv zeta.
  pose proof (py_max_list_in rest w0) as Hin. apply Hall in Hin.
  destruct (Qcompare_spec 0 (py_max_list w0 rest)); try done. lra.
Qed.

Lemma normalize_edge_weights_no_positive_witness :
  normalize_edge_weights [0; -3] = [1.0; 1.0].
Proof.
  apply (normalize_edge_weights_no_positive [0; -3]).
  intros w Hw. repeat (apply elem_of_cons in Hw as [->|Hw]); [done..|].
  by inv Hw.
Defined.

(** * The node colours (lines 98-107 and 179-190) *)

Lemma elem_of_sectors (G : DiGraph) (s : string) :
  s ∈ sectors G ↔ ∃ n, G_node G !! n = Some (Some s).
Proof.
  unfold sectors. rewrite elem_of_list_to_set, list_elem_of_omap. split.
  - intros ([n a] & Hin%elem_of_map_to_list & Ha). cbn in Ha. subst a.
    by exists n.
  - intros [n Hn]. exists (n, Some s). split; [|done].
    by apply elem_of_map_to_list.
Qed.

Lemma enumerate_colors_other (color_map : nat → color) (order : list string)
    (s : string) :
  s ∉ order →
  ∀ i m, enumerate_colors color_map i order m !! s = m !! s.
Proof.
  induction order as [|s0 order IH]; intros Hs i m; [done|].
  apply not_elem_of_cons in Hs as [Hne Hs]. cbn [enumerate_colors].
  rewrite IH by done. by rewrite lookup_insert_ne.
Qed.

Lemma enumerate_colors_lookup (color_map : nat → color) (order : list string)
    (s : string) :
  NoDup order →
  ∀ i m k, order !! k = Some s →
           enumerate_colors color_map i order m !! s
           = Some (color_map (i + k)%nat).
Proof.
  induction 1 as [|s0 order Hnotin Hnd IH]; intros i m k Hk; [done|].
  cbn [enumerate_colors]. destruct k as [|k]; cbn in Hk.
  - simplify_eq. rewrite enumerate_colors_other by done.
    by rewrite lookup_insert_eq, Nat.add_0_r.
  - rewrite (IH _ _ k Hk). do 2 f_equal. lia.
Qed.

Lemma enumerate_colors_is_Some (color_map : nat → color)
    (order : list string) (s : string) :
  ∀ i m, is_Some (enumerate_colors color_map i order m !! s)
         ↔ s ∈ order ∨ is_Some (m !! s).
Proof.
  induction order as [|s0 order IH]; intros i m; cbn [enumerate_colors].
  - rewrite elem_of_nil. tauto.
  - rewrite IH, elem_of_cons. destruct (decide (s = s0)) as [->|Hne].
    + rewrite lookup_insert_eq. split; [intros _; left; by left|].
      intros _. right. by eexists.
    + rewrite lookup_insert_ne by done. tauto.
Qed.

Lemma graph_node_colors_found (G : DiGraph) (sc : gmap string color)
    (nodes : list string) :
  (∀ n, n ∈ nodes → ∃ s, G_node G !! n = Some (Some s) ∧ is_Some (sc !! s)) →
  ∃ cs, graph_node_colors G sc nodes = Found cs ∧ length cs = length nodes.
Proof.
  induction nodes as [|n nodes IH]; intros Hall; [by exists []|].
  destruct (Hall n) as (s & Hn & [c Hc]); [by left|].
  destruct IH as (cs & Hcs & Hlen); [intros m Hm; apply Hall; by right|].
  exists (c :: cs). cbn [graph_node_colors]. unfold graph_node_color.
  rewrite Hn, Hc, Hcs. split; [done|]. cbn. by rewrite Hlen.
Qed.

Lemma graph_node_colors_no_sector (G : DiGraph) (sc : gmap string color)
    (nodes : list string) (n : string) :
  (∀ m, m ∈ nodes → ∃ a, G_node G !! m = Some a ∧
                         ∀ s, a = Some s → is_Some (sc !! s)) →
  n ∈ nodes → G_node G !! n = Some None →
  graph_node_colors G sc nodes = KeyError "sector".
Proof.
  intros Hall Hin Hn. induction nodes as [|m nodes IH]; [by inv Hin|].
  cbn [graph_node_colors]. unfold graph_node_color at 1.
  destruct (Hall m) as (a & Hm & Ha); [by left|]. rewrite Hm.
  destruct a as [s|]; [|done]. destruct (Ha s eq_refl) as [c ->].
  apply elem_of_cons in Hin as [->|Hin]; [congruence|].
  rewrite IH; [done| |done]. intros m' Hm'. apply Hall. by right.
Qed.

(** X17: the node colouring of [visualize_graph] on the graph that
    [create_graph] builds: it raises [KeyError('sector')] exactly when a row
    of the edge table names a company that the company table does not
    list; otherwise it yields one colour per node. *)
Theorem graph_node_colors_key_error (edges_df : list (string * string * Q))
    (companies_df : list (string * string)) (order nodes : list string) :
  let G := create_graph edges_df companies_df in
  (∀ n, n ∈ nodes ↔ has_node G n = true) →
  (∀ s, s ∈ order ↔ s ∈ sectors G) →
  (graph_node_colors G (graph_sector_colors G order) nodes = KeyError "sector"
   ↔ ∃ e, e ∈ edges_df ∧
          (e.1.1 ∉ companies_df.*1 ∨ e.1.2 ∉ companies_df.*1)) ∧
  ((∀ e, e ∈ edges_df →
         e.1.1 ∈ companies_df.*1 ∧ e.1.2 ∈ companies_df.*1) →
   ∃ cs, graph_node_colors G (graph_sector_colors G order) nodes = Found cs ∧
         length cs = length nodes).
Proof.
  intros G Hnodes Horder.
  assert (∀ s, s ∈ sectors G → is_Some (graph_sector_colors G order !! s))
    as Hsc.
  { intros s Hs. apply enumerate_colors_is_Some. left. by apply Horder. }
  assert (∀ m, m ∈ nodes → ∃ a, G_node G !! m = Some a ∧
            ∀ s, a = Some s → is_Some (graph_sector_colors G order !! s))
    as Hattr.
  { intros m Hm%Hnodes. unfold has_node in Hm.
    apply bool_decide_eq_true in Hm as [a Ha]. exists a. split; [done|].
    intros s ->. apply Hsc, elem_of_sectors. by exists m. }
  assert ((∀ e, e ∈ edges_df →
             e.1.1 ∈ companies_df.*1 ∧ e.1.2 ∈ companies_df.*1) →
          ∃ cs, graph_node_colors G (graph_sector_colors G order) nodes
                = Found cs ∧ length cs = length nodes) as Hfound.
  { intros Hall. apply graph_node_colors_found. intros n Hn.
    destruct (Hattr n Hn) as (a & Ha & Hs).
    destruct (create_graph_node_attr edges_df companies_df n) as [Hc Hnc].
    destruct (decide (n ∈ companies_df.*1)) as [Hin|Hout].
    - destruct (Hc Hin) as [s Es]. exists s. split; [done|].
      apply Hsc, elem_of_sectors. by exists n.
    - specialize (Hnc Hout). fold G in Hnc. rewrite Ha in Hnc.
      case_decide as Hex; [|done]. apply Exists_exists in Hex
        as (e & He & Hend). destruct (Hall e He) as [H1 H2].
      by destruct Hend as [-> | ->]. }
  split; [|done]. split.
  - intros Herr.
    destruct (decide (Forall (fun e : string * string * Q =>
                e.1.1 ∈ companies_df.*1 ∧ e.1.2 ∈ companies_df.*1) edges_df))
      as [Hall|Hex].
    + rewrite Forall_forall in Hall.
      destruct (Hfound Hall) as (cs & Hcs & _). congruence.
    + apply not_Forall_Exists in Hex; [|apply _].
      apply Exists_exists in Hex as (e & He & Hno). exists e.
      split; [done|]. by apply not_and_l in Hno.
  - intros (e & He & Hend).
    assert (∃ n, (n = e.1.1 ∨ n = e.1.2) ∧ n ∉ companies_df.*1)
      as (n & Hn & Hnot) by (destruct Hend; eauto).
    destruct (create_graph_node_attr edges_df companies_df n) as [_ Hnc].
    specialize (Hnc Hnot). fold G in Hnc.
    rewrite decide_True in Hnc by (apply Exists_exists; by exists e).
    apply (graph_node_colors_no_sector G _ nodes n Hattr); [|done].
    apply Hnodes. unfold has_node. apply bool_decide_eq_true. by rewrite Hnc.
Qed.

Lemma graph_node_colors_key_error_witness :
  graph_node_colors (create_graph [("A", "B", 1)] [("A", "Tech")])
    (graph_sector_colors (create_graph [("A", "B", 1)] [("A", "Tech")]) ["Tech"])
    ["A"; "B"] = KeyError "sector".
Proof.
  apply (graph_node_colors_key_error [("A", "B", 1)] [("A", "Tech")]
           ["Tech"] ["A"; "B"]).
  - intros n. rewrite !elem_of_cons, elem_of_nil. split.
    + intros [->|[->|[]]]; reflexivity.
    + intros Hn. destruct (decide (n = "A")) as [->|Ha]; [by left|].
      destruct (decide (n = "B")) as [->|Hb]; [right; by left|].
      exfalso. unfold has_node in Hn. apply bool_decide_eq_true in Hn.
      destruct (create_graph_node_attr [("A", "B", 1)] [("A", "Tech")] n)
        as [_ Hnc].
      rewrite Hnc in Hn by (by intros ->%list_elem_of_singleton).
      case_decide as Hex; [|by destruct Hn].
      apply Exists_exists in Hex as (e & ->%list_elem_of_singleton & [?|?]);
        done.
  - intros s. rewrite list_elem_of_singleton, elem_of_sectors. split.
    + intros ->. by exists "A".
    + intros [n Hn].
      destruct (create_graph_node_attr [("A", "B", 1)] [("A", "Tech")] n)
        as [Hc Hnc].
      destruct (decide (n ∈ [("A", "Tech")].*1)) as [Hin|Hout].
      * apply list_elem_of_singleton in Hin as ->.
        vm_compute in Hn. by simplify_eq.
      * rewrite Hnc in Hn by done. by case_decide.
  - exists ("A", "B", 1). split; [by left|]. right. cbn.
    by intros ?%list_elem_of_singleton.
Defined.

Lemma sectors_size (G : DiGraph) (order : list string) :
  NoDup order → (∀ s, s ∈ order ↔ s ∈ sectors G) →
  size (sectors G) = length order.
Proof.
  intros Hnd Hset. rewrite <- (size_list_to_set (C := gset string) order Hnd).
  f_equal. apply set_eq. intros s. by rewrite elem_of_list_to_set, Hset.
Qed.

(** X18: in [visualize_max_flow] a node without a sector attribute is
    drawn gray, unless some node's sector is literally "Unknown": then it
    takes the colour of that sector. *)
Theorem flow_node_color_without_sector (G : DiGraph) (order : list string)
    (n : string) :
  NoDup order → (∀ s, s ∈ order ↔ s ∈ sectors G) →
  G_node G !! n = Some None →
  ("Unknown" ∉ sectors G →
   flow_node_color G (flow_sector_colors G order) n = NamedColor "gray") ∧
  (∀ i, order !! i = Some "Unknown" →
        ∃ cmap_name lut,
          flow_node_color G (flow_sector_colors G order) n
          = CmapColor cmap_name lut i ∧
          ∀ m, G_node G !! m = Some (Some "Unknown") →
               flow_node_color G (flow_sector_colors G order) m
               = CmapColor cmap_name lut i).
Proof.
  intros Hnd Hset Hn. unfold flow_node_color. rewrite Hn. cbn [mbind option_bind id default].
  split.
  - intros Hno. unfold flow_sector_colors. cbv zeta.
    rewrite enumerate_colors_other; [by rewrite lookup_empty|].
    by rewrite Hset.
  - intros i Hi.
    exists (if decide (size (sectors G) ≤ 20)%nat then "tab20" else "viridis"),
      (Nat.max 1 (size (sectors G))).
    assert (flow_sector_colors G order !! "Unknown"
            = Some (CmapColor
                      (if decide (size (sectors G) ≤ 20)%nat
                       then "tab20" else "viridis")
                      (Nat.max 1 (size (sectors G))) i)) as Hc.
    { unfold flow_sector_colors. cbv zeta.
      by rewrite (enumerate_colors_lookup _ order "Unknown" Hnd 0 ∅ i Hi). }
    rewrite Hc. split; [done|]. intros m Hm. unfold flow_node_color.
    rewrite Hm. cbn [mbind option_bind id default]. by rewrite Hc.
Qed.

Lemma flow_node_color_without_sector_witness :
  flow_node_color (create_graph [("A", "B", 1)] [("A", "Tech")])
    (flow_sector_colors (create_graph [("A", "B", 1)] [("A", "Tech")]) ["Tech"])
    "B" = NamedColor "gray".
Proof.
  assert (∀ s, s ∈ ["Tech"]
               ↔ s ∈ sectors (create_graph [("A", "B", 1)] [("A", "Tech")]))
    as Hset.
  { intros s. replace (sectors _) with ({["Tech"]} : gset string)
      by (by vm_compute). by rewrite list_elem_of_singleton, elem_of_singleton. }
  apply (flow_node_color_without_sector
           (create_graph [("A", "B", 1)] [("A", "Tech")]) ["Tech"] "B");
    [by apply NoDup_singleton|exact Hset|by vm_compute|].
  rewrite <- Hset. by intros ?%list_elem_of_singleton.
Defined.

(** X19: in [visualize_max_flow] a node with a sector takes the entry of
    the colour map ("tab20" up to 20 sectors, "viridis" above) whose index
    is the position of its sector in the enumeration of the sector set, an
    index below the size of the map.  Two nodes of the same sector take
    the same entry, and nodes of different sectors take entries of
    different indices. *)
Theorem flow_node_color_by_sector (G : DiGraph) (order : list string)
    (n1 n2 s1 s2 : string) :
  NoDup order → (∀ s, s ∈ order ↔ s ∈ sectors G) →
  G_node G !! n1 = Some (Some s1) → G_node G !! n2 = Some (Some s2) →
  let cmap_name :=
    if decide (size (sectors G) ≤ 20)%nat then "tab20" else "viridis" in
  let lut := Nat.max 1 (size (sectors G)) in
  ∃ i1 i2,
    order !! i1 = Some s1 ∧ order !! i2 = Some s2 ∧
    (i1 < lut)%nat ∧ (i2 < lut)%nat ∧
    flow_node_color G (flow_sector_colors G order) n1
    = CmapColor cmap_name lut i1 ∧
    flow_node_color G (flow_sector_colors G order) n2
    = CmapColor cmap_name lut i2 ∧
    (i1 = i2 ↔ s1 = s2) ∧
    (s1 = s2 →
     flow_node_color G (flow_sector_colors G order) n1
     = flow_node_color G (flow_sector_colors G order) n2).
Proof.
  intros Hnd Hset Hn1 Hn2. cbv zeta.
  assert (∀ n s, G_node G !! n = Some (Some s) →
            ∃ i, order !! i = Some s ∧
                 (i < Nat.max 1 (size (sectors G)))%nat ∧
                 flow_node_color G (flow_sector_colors G order) n
                 = CmapColor (if decide (size (sectors G) ≤ 20)%nat
                              then "tab20" else "viridis")
                     (Nat.max 1 (size (sectors G))) i) as Hcol.
  { intros n s Hn.
    assert (s ∈ order) as [i Hi]%list_elem_of_lookup.
    { apply Hset, elem_of_sectors. by exists n. }
    exists i. split_and!; [done| |].
    - apply lookup_lt_Some in Hi.
      rewrite (sectors_size G order Hnd Hset). lia.
    - unfold flow_node_color. rewrite Hn.
      cbn [mbind option_bind id default]. unfold flow_sector_colors.
      cbv zeta.
      by rewrite (enumerate_colors_lookup _ order s Hnd 0 ∅ i Hi). }
  destruct (Hcol n1 s1 Hn1) as (i1 & Hi1 & Hlt1 & E1).
  destruct (Hcol n2 s2 Hn2) as (i2 & Hi2 & Hlt2 & E2).
  assert (i1 = i2 ↔ s1 = s2) as Hiff.
  { split; [intros ->; congruence|]. intros ->. by eapply NoDup_lookup. }
  exists i1, i2. split_and!; try done.
  intros Hs. rewrite E1, E2. f_equal. by apply Hiff.
Qed.

Lemma flow_node_color_by_sector_witness :
  ∃ i1 i2 : nat,
    ["Retail"; "Tech"] !! i1 = Some "Tech" ∧
    ["Retail"; "Tech"] !! i2 = Some "Retail" ∧
    flow_node_color G_ABC (flow_sector_colors G_ABC ["Retail"; "Tech"]) "A"
    = CmapColor "tab20" 2 i1 ∧
    flow_node_color G_ABC (flow_sector_colors G_ABC ["Retail"; "Tech"]) "B"
    = CmapColor "tab20" 2 i2 ∧
    (i1 = i2 ↔ "Tech" = "Retail").
Proof.
  assert (sectors G_ABC = ({["Retail"; "Tech"]} : gset string)) as Hsec
    by (by vm_compute).
  destruct (flow_node_color_by_sector G_ABC ["Retail"; "Tech"] "A" "B"
              "Tech" "Retail")
    as (i1 & i2 & H1 & H2 & _ & _ & E1 & E2 & Hiff & _).
  - apply NoDup_cons. split; [by intros ?%list_elem_of_singleton|].
    apply NoDup_singleton.
  - intros s. rewrite Hsec.
    rewrite !elem_of_cons, elem_of_nil, elem_of_union, !elem_of_singleton.
    tauto.
  - by vm_compute.
  - by vm_compute.
  - exists i1, i2. by split_and!.
Defined.

(** * The column names of [load_data] (lines 18-47) *)

Section frames.
Context {cell : Type}.
Implicit Types df : frame cell.

Lemma columns_rename (old new : string) df :
  columns (rename_column old new df) = relabel old new (columns df).
Proof.
  unfold columns, rename_column, relabel. rewrite <- !list_fmap_compose.
  apply list_fmap_ext. intros i [l c] _. cbn. by case_decide.
Qed.

Lemma cells_rename (old new : string) df :
  (rename_column old new df).*2 = df.*2.
Proof.
  unfold rename_column. rewrite <- list_fmap_compose.
  apply list_fmap_ext. intros i [l c] _. cbn. by case_decide.
Qed.

Lemma relabel_insert (old new : string) (cols : list string) (i : nat) :
  NoDup cols → cols !! i = Some old → relabel old new cols = <[i := new]> cols.
Proof.
  intros Hnd Hi. apply list_eq. intros j. unfold relabel.
  rewrite list_lookup_fmap.
  destruct (decide (i = j)) as [<-|Hne].
  - rewrite Hi, list_lookup_insert_eq by (by eapply lookup_lt_Some). cbn.
    by rewrite decide_True.
  - rewrite list_lookup_insert_ne by done.
    destruct (cols !! j) as [x|] eqn:Hj; [|done]. cbn.
    rewrite decide_False; [done|]. intros ->.
    by apply Hne, (NoDup_lookup cols i j old).
Qed.

Lemma elem_of_insert (l : list string) (i : nat) (x y : string) :
  (i < length l)%nat →
  x ∈ <[i := y]> l ↔ x = y ∨ ∃ j, j ≠ i ∧ l !! j = Some x.
Proof.
  intros Hi. rewrite list_elem_of_lookup. split.
  - intros [j Hj]. apply list_lookup_insert_Some in Hj
      as [(-> & -> & _)|(Hne & Hj)]; [by left|]. right. by exists j.
  - intros [->|(j & Hne & Hj)].
    + exists i. by apply list_lookup_insert_eq.
    + exists j. by rewrite list_lookup_insert_ne.
Qed.

Lemma NoDup_insert_fresh (l : list string) (i : nat) (x : string) :
  NoDup l → x ∉ l → NoDup (<[i := x]> l).
Proof.
  intros Hnd. revert i. induction Hnd as [|y l Hy Hnd IH]; intros i Hx;
    [constructor|].
  apply not_elem_of_cons in Hx as [Hne Hx].
  destruct i as [|i].
  - change (NoDup (x :: l)). apply NoDup_cons. split; [done|done].
  - change (NoDup (y :: <[i := x]> l)). apply NoDup_cons.
    split; [|by apply IH].
    destruct (decide (i < length l)%nat) as [Hlt|Hge].
    + rewrite elem_of_insert by done. intros [->|(j & _ & Hj)]; [done|].
      apply Hy. by eapply list_elem_of_lookup_2.
    + by rewrite list_insert_ge by lia.
Qed.

Lemma drop_index_columns_filter df :
  drop_index_columns df
  = filter (fun c => c.1 ≠ "" ∧ c.1 ≠ "Unnamed: 0") df.
Proof.
  assert (∀ (l : string) (d : frame cell),
            l ∉ columns d → filter (fun c => c.1 ≠ l) d = d) as Hid.
  { intros l d Hl. induction d as [|c d IH]; [done|].
    unfold columns in Hl. rewrite fmap_cons in Hl.
    apply not_elem_of_cons in Hl as [Hne Hl].
    rewrite filter_cons_True by done. by rewrite IH. }
  assert (∀ d : frame cell,
            filter (fun c => c.1 ≠ "Unnamed: 0") (filter (fun c => c.1 ≠ "") d)
            = filter (fun c => c.1 ≠ "" ∧ c.1 ≠ "Unnamed: 0") d) as Hcomp.
  { intros d. induction d as [|c d IH]; [done|].
    rewrite !filter_cons. repeat case_decide; try tauto.
    - rewrite filter_cons_True by tauto. by rewrite IH.
    - rewrite filter_cons_False by tauto. done. }
  unfold drop_index_columns, drop_column. cbv zeta.
  rewrite <- Hcomp.
  destruct (decide ("" ∈ columns df)) as [H1|H1].
  - rewrite decide_True by (by left). case_decide as H2; [done|].
    by rewrite (Hid "Unnamed: 0" _ H2).
  - rewrite (Hid "" df H1). case_decide as H2.
    + destruct H2 as [?|H2]; [done|]. by rewrite decide_True.
    + rewrite Hid; [done|]. tauto.
Qed.

Lemma name_sector_column_has_sector (unknown : cell) df :
  "Sector" ∈ columns (name_sector_column unknown df).
Proof.
  unfold name_sector_column. case_decide as Hs; [done|].
  case_decide as Hlen.
  - apply lookup_lt_is_Some_2 in Hlen as Hsec. destruct Hsec as [c1 Hc1].
    rewrite Hc1, columns_rename. unfold relabel.
    apply (list_elem_of_fmap_2' _ _ c1); [by eapply list_elem_of_lookup_2|].
    by rewrite decide_True.
  - unfold columns. rewrite fmap_app. apply elem_of_app. right. by left.
Qed.

(** X20: normalising the company table fails with [IndexError] exactly
    when every column is an index column (labelled '' or 'Unnamed: 0');
    otherwise the result has a column 'Sector'. *)
Theorem normalize_companies_sector (unknown : cell) df :
  (normalize_companies unknown df = IndexError
   ↔ ∀ l, l ∈ columns df → l = "" ∨ l = "Unnamed: 0") ∧
  (∀ df', normalize_companies unknown df = Loaded df' →
          "Sector" ∈ columns df').
Proof.
  split.
  - unfold normalize_companies, name_company_column.
    rewrite drop_index_columns_filter.
    set (kept := filter _ df).
    assert (kept = [] ↔ ∀ l, l ∈ columns df → l = "" ∨ l = "Unnamed: 0")
      as Hkept.
    { unfold kept, columns. split.
      - intros Hnil l ([l' c] & -> & Hin)%list_elem_of_fmap. cbn.
        destruct (decide (l' = "")) as [?|H1]; [by left|].
        destruct (decide (l' = "Unnamed: 0")) as [?|H2]; [by right|].
        assert ((l', c) ∈ filter (fun c : string * list cell =>
                  c.1 ≠ "" ∧ c.1 ≠ "Unnamed: 0") df) as Hf
          by (by apply list_elem_of_filter).
        rewrite Hnil in Hf. by inv Hf.
      - intros Hall. apply elem_of_nil_inv.
        intros [l c] [[H1 H2] Hin]%list_elem_of_filter. cbn in *.
        destruct (Hall l); [|done..].
        apply list_elem_of_fmap. by exists (l, c). }
    rewrite <- Hkept. destruct kept as [|[l c] kept'].
    + by rewrite decide_False by (by intros ?%elem_of_nil).
    + split; [|done]. case_decide; done.
  - unfold normalize_companies. intros df' H.
    destruct (name_company_column _) as [df1|]; [|done].
    injection H as <-. apply name_sector_column_has_sector.
Qed.
Lemma columns_drop_index_columns df :
  columns (drop_index_columns df)
  = filter (fun l => l ≠ "" ∧ l ≠ "Unnamed: 0") (columns df).
Proof.
  rewrite drop_index_columns_filter. unfold columns.
  induction df as [|c df IH]; [done|].
  rewrite fmap_cons, !filter_cons. case_decide; [|done].
  by rewrite fmap_cons, IH.
Qed.

Lemma name_company_column_cols df df1 :
  NoDup (columns df) → name_company_column df = Loaded df1 →
  NoDup (columns df1) ∧ df1.*2 = df.*2 ∧
  (("Company" ∈ columns df ∧ df1 = df) ∨
   (("Company" ∉ columns df) ∧ (0 < length (columns df))%nat ∧
    columns df1 = <[0%nat := "Company"]> (columns df))).
Proof.
  intros Hnd. unfold name_company_column. case_decide as Hc.
  - intros [= <-]. split_and!; [done..|]. by left.
  - destruct (columns df !! 0%nat) as [first|] eqn:H0; [|done].
    intros [= <-]. rewrite columns_rename, cells_rename.
    rewrite (relabel_insert first "Company" _ 0 Hnd H0).
    apply lookup_lt_Some in H0 as Hlen. split_and!; [|done|].
    + by apply NoDup_insert_fresh.
    + right. split_and!; done.
Qed.

Lemma name_sector_column_cols (unknown : cell) df :
  NoDup (columns df) →
  ("Sector" ∈ columns df ∧ name_sector_column unknown df = df) ∨
  (("Sector" ∉ columns df) ∧ (1 < length (columns df))%nat ∧
   columns (name_sector_column unknown df) = <[1%nat := "Sector"]> (columns df) ∧
   (name_sector_column unknown df).*2 = df.*2) ∨
  (("Sector" ∉ columns df) ∧ (length (columns df) ≤ 1)%nat ∧
   name_sector_column unknown df
   = df ++ [("Sector", replicate (n_rows df) unknown)]).
Proof.
  intros Hnd. unfold name_sector_column. case_decide as Hs; [by left|].
  right. case_decide as Hlen.
  - left. apply lookup_lt_is_Some_2 in Hlen as Hsec.
    destruct Hsec as [c1 Hc1]. rewrite Hc1, columns_rename, cells_rename.
    by rewrite (relabel_insert c1 "Sector" _ 1 Hnd Hc1).
  - right. split_and!; [done|lia|done].
Qed.

(** X21: with distinct column labels, normalising the company table loses
    the column 'Company' in one case only: when, index columns dropped, it
    is the second column and there is no column 'Sector'; the second column
    is then renamed 'Sector'.  In every other case the result has a column
    'Company'. *)
Theorem normalize_companies_company (unknown : cell) df df' :
  NoDup (columns df) →
  normalize_companies unknown df = Loaded df' →
  ("Company" ∉ columns df'
   ↔ columns (drop_index_columns df) !! 1%nat = Some "Company" ∧
     "Sector" ∉ columns df) ∧
  NoDup (columns df').
Proof.
  intros Hnd. unfold normalize_companies.
  destruct (name_company_column _) as [df1|] eqn:E1; [|done].
  intros [= <-].
  assert (NoDup (columns (drop_index_columns df))) as Hnd0.
  { rewrite columns_drop_index_columns. by apply NoDup_filter. }
  assert ("Sector" ∈ columns (drop_index_columns df) ↔ "Sector" ∈ columns df)
    as Hsec.
  { rewrite columns_drop_index_columns, list_elem_of_filter.
    split; [tauto|]. intros ?. by split_and!. }
  set (cols := columns (drop_index_columns df)) in *.
  apply name_company_column_cols in E1 as (Hnd1 & _ & Hcase); [|done].
  fold cols in Hcase.
  assert ("Company" ∈ columns df1) as Hc1.
  { destruct Hcase as [[Hc ->]|(Hc & Hlen & ->)]; [done|].
    by apply list_elem_of_insert. }
  destruct (name_sector_column_cols unknown df1 Hnd1)
    as [[Hs ->]|[(Hs & Hlen & Hcols & _)|(Hs & Hlen & ->)]].
  - split; [|done]. split; [done|]. intros [H1 Hno]. exfalso.
    destruct Hcase as [[Hc ->]|(Hc & _ & _)].
    + by apply Hno, Hsec.
    + apply Hc. by eapply list_elem_of_lookup_2.
  - rewrite Hcols. split; [|by apply NoDup_insert_fresh].
    rewrite elem_of_insert by done.
    destruct Hcase as [[Hc ->]|(Hc & Hlen0 & Hcols1)].
    + split.
      * intros Hno. split; [|by rewrite <- Hsec].
        apply list_elem_of_lookup in Hc as [j Hj].
        destruct (decide (j = 1%nat)) as [->|Hne]; [done|].
        destruct Hno. right. by exists j.
      * intros [H1 _] [?|(j & Hne & Hj)]; [done|].
        by apply Hne, (NoDup_lookup cols j 1 "Company").
    + split.
      * intros Hno. destruct Hno. right. exists 0%nat. split; [done|].
        rewrite Hcols1. by apply list_lookup_insert_eq.
      * intros [H1 _]. destruct Hc. by eapply list_elem_of_lookup_2.
  - unfold columns at 1 3. rewrite fmap_app. cbn [fmap list_fmap fst].
    split.
    + split; [intros Hno; destruct Hno; apply elem_of_app; by left|].
      intros [H1 _]. apply lookup_lt_Some in H1.
      destruct Hcase as [[Hc ->]|(Hc & _ & Hcols1)]; [fold cols in Hlen; lia|].
      rewrite Hcols1, length_insert in Hlen. lia.
    + apply NoDup_app. split_and!; [done| |apply NoDup_singleton].
      intros l Hl ->%list_elem_of_singleton. done.
Qed.

Lemma n_rows_rename (old new : string) df :
  n_rows (rename_column old new df) = n_rows df.
Proof. destruct df as [|[l c] df]; [done|]. cbn. by case_decide. Qed.

Lemma name_company_column_cells df df1 :
  name_company_column df = Loaded df1 →
  df1.*2 = df.*2 ∧ n_rows df1 = n_rows df ∧ length df1 = length df.
Proof.
  unfold name_company_column. case_decide; [by intros [= <-]|].
  destruct (columns df !! 0%nat); [|done]. intros [= <-].
  rewrite cells_rename, n_rows_rename. split_and!; [done..|].
  unfold rename_column. by rewrite length_fmap.
Qed.

(** X22: normalising the company table only drops the index columns and
    renames: the cells of the remaining columns are untouched and stay in
    their order.  Only when a single column remains can a column be added,
    the constant column 'Sector' = 'Unknown'. *)
Theorem normalize_companies_cells (unknown : cell) df df' :
  normalize_companies unknown df = Loaded df' →
  ((2 ≤ length (drop_index_columns df))%nat →
   df'.*2 = (drop_index_columns df).*2) ∧
  (length (drop_index_columns df) = 1%nat →
   df'.*2 = (drop_index_columns df).*2 ∨
   df'.*2 = (drop_index_columns df).*2
            ++ [replicate (n_rows (drop_index_columns df)) unknown]).
Proof.
  unfold normalize_companies.
  destruct (name_company_column _) as [df1|] eqn:E1; [|done].
  intros [= <-].
  apply name_company_column_cells in E1 as (Hcells & Hrows & Hlen).
  rewrite <- Hcells, <- Hrows, <- Hlen. unfold name_sector_column.
  unfold columns.
  assert (length df1.*1 = length df1) as -> by apply length_fmap. split.
  - intros H2. case_decide; [done|]. rewrite decide_True by lia.
    destruct (df1.*1 !! 1%nat); [apply cells_rename|done].
  - intros H1. case_decide; [by left|]. rewrite decide_False by lia.
    right. by rewrite fmap_app.
Qed.

Lemma name_edge_column_cells df (ic : nat * string) :
  (name_edge_column df ic).*2 = df.*2 ∧
  length (name_edge_column df ic) = length df.
Proof.
  unfold name_edge_column. repeat case_decide; try done.
  destruct (columns df !! ic.1); [|done]. rewrite cells_rename.
  split; [done|]. unfold rename_column. by rewrite length_fmap.
Qed.

Lemma name_edge_column_has df (ic : nat * string) :
  (ic.1 < length df)%nat → ic.2 ∈ columns (name_edge_column df ic).
Proof.
  intros Hlt. unfold name_edge_column. case_decide; [done|].
  assert (ic.1 < length (columns df))%nat as Hlt'
    by (unfold columns; by rewrite length_fmap).
  rewrite decide_True by done.
  destruct (lookup_lt_is_Some_2 _ _ Hlt') as [c Hc].
  rewrite Hc, columns_rename. unfold relabel.
  apply (list_elem_of_fmap_2' _ _ c); [by eapply list_elem_of_lookup_2|].
  by rewrite decide_True.
Qed.

Lemma name_edge_column_cols df (ic : nat * string) :
  NoDup (columns df) →
  (name_edge_column df ic = df ∧
   (ic.2 ∈ columns df ∨ (length (columns df) ≤ ic.1)%nat)) ∨
  ((ic.2 ∉ columns df) ∧ (ic.1 < length (columns df))%nat ∧
   columns (name_edge_column df ic) = <[ic.1 := ic.2]> (columns df)).
Proof.
  intros Hnd. unfold name_edge_column. case_decide as Hin; [left; by eauto|].
  case_decide as Hlt; [|left; split; [done|right; lia]].
  right. apply lookup_lt_is_Some_2 in Hlt as Hc. destruct Hc as [c Hc].
  rewrite Hc, columns_rename. by rewrite (relabel_insert c _ _ _ Hnd Hc).
Qed.

Lemma name_edge_column_NoDup df (ic : nat * string) :
  NoDup (columns df) → NoDup (columns (name_edge_column df ic)).
Proof.
  intros Hnd. destruct (name_edge_column_cols df ic Hnd)
    as [[-> _]|(Hin & _ & ->)]; [done|]. by apply NoDup_insert_fresh.
Qed.

Lemma normalize_edges_unfold df :
  normalize_edges df
  = name_edge_column
      (name_edge_column (name_edge_column df (0%nat, "Company1"))
         (1%nat, "Company2"))
      (2%nat, "Weight").
Proof. reflexivity. Qed.

(** X23: normalising the edge table never drops, adds, reorders or
    changes a column's cells; when the table has at least three columns
    the result has a column 'Weight'; distinct labels stay distinct. *)
Theorem normalize_edges_basic df :
  (normalize_edges df).*2 = df.*2 ∧
  ((3 ≤ length df)%nat → "Weight" ∈ columns (normalize_edges df)) ∧
  (NoDup (columns df) → NoDup (columns (normalize_edges df))).
Proof.
  rewrite normalize_edges_unfold.
  destruct (name_edge_column_cells df (0%nat, "Company1")) as [Hc1 Hl1].
  destruct (name_edge_column_cells
              (name_edge_column df (0%nat, "Company1")) (1%nat, "Company2"))
    as [Hc2 Hl2].
  destruct (name_edge_column_cells
              (name_edge_column
                 (name_edge_column df (0%nat, "Company1"))
                 (1%nat, "Company2")) (2%nat, "Weight")) as [Hc3 Hl3].
  split_and!.
  - by rewrite Hc3, Hc2, Hc1.
  - intros Hlen.
    apply (name_edge_column_has
             (name_edge_column (name_edge_column df (0%nat, "Company1"))
                (1%nat, "Company2")) (2%nat, "Weight")).
    cbn. lia.
  - intros Hnd. by do 3 apply name_edge_column_NoDup.
Qed.

Lemma insert_keeps_position (cols : list string) (i j : nat)
    (name name' : string) :
  i ≠ j → name' ≠ name → (i < length cols)%nat →
  (name' ∈ cols → cols !! j = Some name') →
  name' ∈ <[i := name]> cols → <[i := name]> cols !! j = Some name'.
Proof.
  intros Hij Hne Hlt Hpos Hin. rewrite list_lookup_insert_ne by done.
  apply Hpos. apply elem_of_insert in Hin; [|done].
  destruct Hin as [?|(k & _ & Hk)]; [done|].
  by eapply list_elem_of_lookup_2.
Qed.

Lemma name_edge_column_in_place df (i : nat) (name : string) :
  NoDup (columns df) → (i < length (columns df))%nat →
  (name ∈ columns df → columns df !! i = Some name) →
  columns (name_edge_column df (i, name)) = <[i := name]> (columns df).
Proof.
  intros Hnd Hlt Hpos.
  destruct (name_edge_column_cols df (i, name) Hnd)
    as [[-> [Hin|Hge]]|(_ & _ & ->)]; cbn in *; [|lia|done].
  by rewrite list_insert_id by by apply Hpos.
Qed.

(** X24: the positional fallback of the edge table.  With distinct
    labels and at least three columns, if each of 'Company1', 'Company2'
    and 'Weight' that occurs among the labels occurs at its own position
    (first, second, third), then the result names the first three columns
    'Company1', 'Company2', 'Weight' and keeps all other labels. *)
Theorem normalize_edges_in_place df :
  NoDup (columns df) → (3 ≤ length (columns df))%nat →
  (∀ i name, (i, name) ∈ required_edge_cols →
             name ∈ columns df → columns df !! i = Some name) →
  columns (normalize_edges df)
  = ["Company1"; "Company2"; "Weight"] ++ drop 3 (columns df).
Proof.
  intros Hnd Hlen Hpos. rewrite normalize_edges_unfold.
  set (df1 := name_edge_column df (0%nat, "Company1")).
  set (df2 := name_edge_column df1 (1%nat, "Company2")).
  assert (columns df1 = <[0%nat := "Company1"]> (columns df)) as E1.
  { apply name_edge_column_in_place; [done|lia|].
    apply Hpos. by left. }
  assert (columns df2 = <[1%nat := "Company2"]> (columns df1)) as E2.
  { apply name_edge_column_in_place.
    - by apply name_edge_column_NoDup.
    - rewrite E1, length_insert. lia.
    - rewrite E1. apply insert_keeps_position; [done|done|lia|].
      apply Hpos. right; by left. }
  rewrite name_edge_column_in_place.
  - rewrite E2, E1. destruct (columns df) as [|a [|b [|c rest]]];
      cbn in Hlen; try lia. done.
  - by do 2 apply name_edge_column_NoDup.
  - rewrite E2, E1, !length_insert. lia.
  - rewrite E2. apply insert_keeps_position; [done|done| |].
    { rewrite E1, length_insert. lia. }
    rewrite E1. apply insert_keeps_position; [done|done|lia|].
    apply Hpos. do 2 right; by left.
Qed.

(** X25: a column is lost when 'Company1' is the label of the second
    column and no column is labelled 'Company2' (labels distinct): the
    second column is renamed and the result has no column 'Company1'. *)
Theorem normalize_edges_loses_company1 df :
  NoDup (columns df) →
  columns df !! 1%nat = Some "Company1" → "Company2" ∉ columns df →
  ("Company1" ∉ columns (normalize_edges df)) ∧
  columns (normalize_edges df) !! 1%nat = Some "Company2".
Proof.
  intros Hnd H1 Hno. rewrite normalize_edges_unfold.
  assert ("Company1" ∈ columns df) as Hin by (by eapply list_elem_of_lookup_2).
  assert (name_edge_column df (0%nat, "Company1") = df) as ->.
  { unfold name_edge_column. by rewrite decide_True. }
  apply lookup_lt_Some in H1 as Hlen.
  destruct (name_edge_column_cols df (1%nat, "Company2") Hnd)
    as [[_ [?|?]]|(_ & _ & E2)]; cbn in *; [done|lia|].
  set (df2 := name_edge_column df (1%nat, "Company2")) in *.
  assert (NoDup (columns df2)) as Hnd2 by (by apply name_edge_column_NoDup).
  assert ("Company1" ∉ columns df2) as Hout.
  { rewrite E2, elem_of_insert by done. intros [?|(j & Hne & Hj)]; [done|].
    by apply Hne, (NoDup_lookup (columns df) j 1 "Company1"). }
  assert (columns df2 !! 1%nat = Some "Company2") as H2.
  { rewrite E2. by apply list_lookup_insert_eq. }
  destruct (name_edge_column_cols df2 (2%nat, "Weight") Hnd2)
    as [[-> _]|(_ & Hlt & ->)]; cbn in *; [done|].
  split.
  - rewrite elem_of_insert by done. intros [?|(j & Hne & Hj)]; [done|].
    apply Hout. by eapply list_elem_of_lookup_2.
  - by rewrite list_lookup_insert_ne.
Qed.
End frames.

(** A company table whose first column is an identifier: the column
    'Company' is renamed 'Sector'. *)
Lemma normalize_companies_company_witness :
  "Company" ∉ columns [("Id", ["1"; "2"]); ("Sector", ["A"; "B"])].
Proof.
  assert (NoDup (columns [("Id", ["1"; "2"]); ("Company", ["A"; "B"])]))
    as Hnd by (apply (bool_decide_unpack _); by vm_compute).
  apply (proj1 (normalize_companies_company "Unknown"
                  [("Id", ["1"; "2"]); ("Company", ["A"; "B"])]
                  [("Id", ["1"; "2"]); ("Sector", ["A"; "B"])]
                  Hnd eq_refl)).
  split; [reflexivity|]. apply (bool_decide_unpack _). by vm_compute.
Defined.

Lemma normalize_companies_cells_witness :
  let df := [("Unnamed: 0", ["0"; "1"]); ("Name", ["A"; "B"])] in
  let df' := [("Company", ["A"; "B"]); ("Sector", ["Unknown"; "Unknown"])] in
  normalize_companies "Unknown" df = Loaded df' ∧
  (df'.*2 = (drop_index_columns df).*2 ∨
   df'.*2 = (drop_index_columns df).*2
            ++ [replicate (n_rows (drop_index_columns df)) "Unknown"]).
Proof.
  cbv zeta. split; [reflexivity|].
  apply (proj2 (normalize_companies_cells "Unknown"
                  [("Unnamed: 0", ["0"; "1"]); ("Name", ["A"; "B"])]
                  [("Company", ["A"; "B"]); ("Sector", ["Unknown"; "Unknown"])]
                  eq_refl)).
  reflexivity.
Defined.

Lemma normalize_edges_in_place_witness :
  columns (normalize_edges
             [("from", ["A"]); ("to", ["B"]); ("Weight", ["1"]);
              ("note", ["x"])])
  = ["Company1"; "Company2"; "Weight"]
    ++ drop 3 (columns [("from", ["A"]); ("to", ["B"]); ("Weight", ["1"]);
                        ("note", ["x"])]).
Proof.
  apply (normalize_edges_in_place
           [("from", ["A"]); ("to", ["B"]); ("Weight", ["1"]);
            ("note", ["x"])]).
  - apply (bool_decide_unpack _). by vm_compute.
  - cbn. lia.
  - intros i name Hin Hname.
    repeat (apply elem_of_cons in Hin as [[= -> ->]|Hin]);
      [exfalso; revert Hname| exfalso; revert Hname|reflexivity|by inv Hin];
      apply (bool_decide_unpack _); by vm_compute.
Defined.

Lemma normalize_edges_loses_company1_witness :
  ("Company1" ∉ columns (normalize_edges
                           [("id", ["7"]); ("Company1", ["A"]);
                            ("Weight", ["1"])])) ∧
  columns (normalize_edges
             [("id", ["7"]); ("Company1", ["A"]); ("Weight", ["1"])])
    !! 1%nat = Some "Company2".
Proof.
  apply (normalize_edges_loses_company1
           [("id", ["7"]); ("Company1", ["A"]); ("Weight", ["1"])]);
    [|reflexivity|]; apply (bool_decide_unpack _); by vm_compute.
Defined.
